(** * Ingestion pipeline of the music library: [app/lib/populate.py]

    A shallow embedding of [Populate] (session key, change detection, tag
    ingestion with cooperative cancellation, staged post-processing) and the
    properties of it that the specification states.

    The Python code runs in a world of process-wide singletons (the in-memory
    stores, the SQLite tables, the module global [POPULATE_KEY]) and may raise.
    It is embedded in a state-and-exception monad in which, as in Python, an
    exception keeps the state reached when it was raised. *)

From Stdlib Require Import String Ascii List ZArith Bool Arith Lia.
From Stdlib Require Import DecimalString.
Import ListNotations.
Open Scope string_scope.
Open Scope list_scope.

Set Implicit Arguments.

(** ** Python string primitives used by the code *)

(** [sep.join(ls)] *)
Definition py_join (sep : string) (ls : list string) : string :=
  String.concat sep ls.

(** [needle in hay] on two [str]: substring test. *)
Fixpoint py_in (needle hay : string) : bool :=
  if String.prefix needle hay then true
  else match hay with
       | EmptyString => false
       | String _ hay' => py_in needle hay'
       end.

(** [str(n)] on a non-negative [int], as an f-string renders it. *)
Definition py_str (n : nat) : string :=
  NilEmpty.string_of_uint (Nat.to_uint n).

(** [x in xs] on a list (or set) of [str]. *)
Definition mem (x : string) (xs : list string) : bool :=
  existsb (String.eqb x) xs.

(** Does character [c] occur in [s]? *)
Fixpoint has_char (c : ascii) (s : string) : bool :=
  match s with
  | EmptyString => false
  | String d s' => Ascii.eqb c d || has_char c s'
  end.

(** The characters of a string, and [join] read on lists of characters;
    used to reason about [py_in] and [py_join]. *)
Definition chars (s : string) : list ascii := list_ascii_of_string s.

Fixpoint join_chars (sep : list ascii) (ls : list (list ascii)) : list ascii :=
  match ls with
  | [] => []
  | [x] => x
  | x :: xs => x ++ sep ++ join_chars sep xs
  end.

(** ** Data model *)

(** An artist identity carried by a track ([track.artist], [track.albumartist]). *)
Module ArtistMinimal.
Record t := mk { name : string; artisthash : string }.
End ArtistMinimal.

(** The dict returned by [get_tags], one row of the persistent track table. *)
Module Tags.
Record t := mk {
  filepath : string;
  last_mod : Z;
  trackhash : string;
  albumhash : string;
  artist : list ArtistMinimal.t;
  albumartist : list ArtistMinimal.t;
  image : string }.
End Tags.

Module Track.
Record t := mk {
  filepath : string;
  last_mod : Z;
  trackhash : string;
  albumhash : string;
  artist : list ArtistMinimal.t;
  albumartist : list ArtistMinimal.t;
  image : string;
  is_favorite : bool }.

(** [track.is_favorite = b] *)
Definition set_is_favorite (b : bool) (x : t) : t :=
  mk (filepath x) (last_mod x) (trackhash x) (albumhash x)
     (artist x) (albumartist x) (image x) b.
End Track.

Module Album.
Record t := mk { albumhash : string; image : string }.
End Album.

Module Artist.
Record t := mk { name : string; artisthash : string }.
End Artist.

(** A row of the favourites table; [t[1]] in the code is the hash. *)
Record fav_row := mk_fav { fav_id : Z; fav_hash : string; fav_type : string }.

(** Modelled from the spec: the [Track] model ([app.models]) is not part of the
    sources at hand.  Per the data model a Track carries exactly the attributes
    of its tag dict plus the derived [is_favorite], which the constructor call
    on the unpacked dict leaves at its default. *)
Definition Track_of_tags (g : Tags.t) : Track.t :=
  Track.mk (Tags.filepath g) (Tags.last_mod g) (Tags.trackhash g)
           (Tags.albumhash g) (Tags.artist g) (Tags.albumartist g)
           (Tags.image g) false.

(** ** The world: process-wide singletons and persistent tables *)

Record World := mkWorld {
  POPULATE_KEY : string;                    (* module global, line 29 *)
  TrackStore_tracks : list Track.t;         (* TrackStore.tracks *)
  AlbumStore_albums : list Album.t;         (* AlbumStore.albums *)
  ArtistStore_artists : list Artist.t;      (* ArtistStore.artists *)
  db_tracks : list Tags.t;                  (* persistent track table *)
  db_favorites : list fav_row;              (* persistent favourites table *)
  db_root_dirs : list string                (* persistent settings: root dirs *)
}.

Definition set_POPULATE_KEY (k : string) (w : World) : World :=
  mkWorld k (TrackStore_tracks w) (AlbumStore_albums w) (ArtistStore_artists w)
          (db_tracks w) (db_favorites w) (db_root_dirs w).

Definition set_tracks (l : list Track.t) (w : World) : World :=
  mkWorld (POPULATE_KEY w) l (AlbumStore_albums w) (ArtistStore_artists w)
          (db_tracks w) (db_favorites w) (db_root_dirs w).

Definition set_albums (l : list Album.t) (w : World) : World :=
  mkWorld (POPULATE_KEY w) (TrackStore_tracks w) l (ArtistStore_artists w)
          (db_tracks w) (db_favorites w) (db_root_dirs w).

Definition set_artists (l : list Artist.t) (w : World) : World :=
  mkWorld (POPULATE_KEY w) (TrackStore_tracks w) (AlbumStore_albums w) l
          (db_tracks w) (db_favorites w) (db_root_dirs w).

Definition set_db_tracks (l : list Tags.t) (w : World) : World :=
  mkWorld (POPULATE_KEY w) (TrackStore_tracks w) (AlbumStore_albums w)
          (ArtistStore_artists w) l (db_favorites w) (db_root_dirs w).

(** ** Exceptions, observable events, and the monad *)

Inductive exn :=
| PopulateCancelledError (msg : string)     (* lines 32-33 *)
| RequestConnectionError
| ReadTimeout
| OSError (path : string)
| OtherError (what : string).

(** The tuple of the [except] clause at line 90. *)
Definition is_network_failure (e : exn) : bool :=
  match e with
  | RequestConnectionError | ReadTimeout => true
  | _ => false
  end.

Inductive level := INFO | WARNING | ERROR.

Inductive arg := ArgN (n : nat) | ArgS (s : string).

(** The stages that [Populate] calls and whose code lives elsewhere. *)
Inductive stage :=
| ValidateTracks
| TrackThumbnails
| AlbumColors
| ArtistColors
| ArtistImages.

(** What a run does that is visible from outside the stores: log records,
    stage invocations, tag-extractor and thumbnail-extractor calls. *)
Inductive event :=
| Log (l : level) (fmt : string) (args : list arg)
| Call (st : stage)
| Probe (reachable : bool)
| GetTags (file : string)
| ExtractThumb (filepath image : string).

Record St := mkSt { world : World; events : list event }.

Inductive result (A : Type) :=
| Ok (a : A) (s : St)
| Raise (e : exn) (s : St).
Arguments Raise {A} e s.

Definition M (A : Type) := St -> result A.

Definition ret {A} (a : A) : M A := fun s => Ok a s.

Definition bind {A B} (m : M A) (k : A -> M B) : M B :=
  fun s => match m s with
           | Ok a s' => k a s'
           | Raise e s' => Raise e s'
           end.

Definition raise {A} (e : exn) : M A := fun s => Raise e s.

Notation "x <- m ;; k" := (bind m (fun x => k))
  (at level 61, m at next level, right associativity).
Notation "m ;; k" := (bind m (fun _ => k))
  (at level 61, right associativity).

Definition final {A} (r : result A) : St :=
  match r with Ok _ s => s | Raise _ s => s end.

Definition get {A} (f : World -> A) : M A := fun s => Ok (f (world s)) s.

Definition modify (f : World -> World) : M unit :=
  fun s => Ok tt (mkSt (f (world s)) (events s)).

Definition emit (e : event) : M unit :=
  fun s => Ok tt (mkSt (world s) (events s ++ [e])).

Definition log (l : level) (fmt : string) (args : list arg) : M unit :=
  emit (Log l fmt args).

(** [try: m except (the exceptions [caught] accepts): handler] *)
Definition try_except {A} (m : M A) (caught : exn -> bool) (handler : M A)
  : M A :=
  fun s => match m s with
           | Ok a s' => Ok a s'
           | Raise e s' => if caught e then handler s' else Raise e s'
           end.

(** [for x in xs: body(x)] *)
Fixpoint for_each {A} (xs : list A) (body : A -> M unit) : M unit :=
  match xs with
  | [] => ret tt
  | x :: xs' => body x ;; for_each xs' body
  end.

(** A stage whose code is elsewhere: it transforms the world and either
    returns or raises. *)
Inductive outcome := Returned | Raised (e : exn).

Definition external := World -> outcome * World.

Definition call (st : stage) (f : external) : M unit :=
  fun s =>
    let s1 := mkSt (world s) (events s ++ [Call st]) in
    match f (world s) with
    | (Returned, w') => Ok tt (mkSt w' (events s1))
    | (Raised e, w') => Raise e (mkSt w' (events s1))
    end.

(** ** Collaborators

    Everything [populate.py] imports from the rest of the application and
    from the operating system.  The file system and tag extractor are read
    only during a run, so they are functions; the stages act on the world. *)

Record Env := mkEnv {
  USER_HOME_DIR : string;                              (* settings.Paths *)
  run_fast_scandir : string -> list string * list string; (* (dirs, files) *)
  getmtime : string -> option Z;                       (* None: OSError *)
  get_tags : string -> option Tags.t;                  (* None: unreadable *)
  create_hash : string -> string;
  get_scan_sleep_time : nat;
  validate_tracks : external;
  ProcessAlbumColors : external;
  ProcessArtistColors : external;
  CheckArtistImages : external;
  Ping : World -> bool }.

(** ** Store and table primitives *)

(** Modelled from the spec: the stores ([app.store]) and the SQLite methods
    ([app.db.sqlite]) are not part of the sources at hand.  The spec gives
    their contracts: stores are collections keyed by hash with a membership
    test [exists(hash)]; a new Album is derived from the track that first
    brings its [albumhash]; an Artist is identified by an [artisthash]
    derived from its name; tracks are deleted keyed by filepath; the
    persistent table offers get-all, insert-many and delete-by-keys. *)
Module TrackStore.
Definition add_track (t : Track.t) : M unit :=
  modify (fun w => set_tracks (TrackStore_tracks w ++ [t]) w).

Definition remove_tracks_by_filepaths (paths : list string) : M unit :=
  modify (fun w =>
    set_tracks (filter (fun t => negb (mem (Track.filepath t) paths))
                       (TrackStore_tracks w)) w).
End TrackStore.

Module AlbumStore.
Definition album_exists (h : string) : M bool :=
  get (fun w => mem h (map Album.albumhash (AlbumStore_albums w))).

Definition create_album (t : Track.t) : Album.t :=
  Album.mk (Track.albumhash t) (Track.image t).

Definition add_album (a : Album.t) : M unit :=
  modify (fun w => set_albums (AlbumStore_albums w ++ [a]) w).
End AlbumStore.

Module ArtistStore.
Definition artist_exists (h : string) : M bool :=
  get (fun w => mem h (map Artist.artisthash (ArtistStore_artists w))).

Definition add_artist (a : Artist.t) : M unit :=
  modify (fun w => set_artists (ArtistStore_artists w ++ [a]) w).
End ArtistStore.

(** [Artist(name)] *)
Definition new_Artist (E : Env) (name : string) : Artist.t :=
  Artist.mk name (create_hash E name).

Definition get_all_tracks : M (list Track.t) :=
  get (fun w => map Track_of_tags (db_tracks w)).

Definition insert_many_tracks (rows : list Tags.t) : M unit :=
  modify (fun w => set_db_tracks (db_tracks w ++ rows) w).

Definition remove_tracks_by_filepaths (paths : list string) : M unit :=
  modify (fun w =>
    set_db_tracks (filter (fun g => negb (mem (Tags.filepath g) paths))
                          (db_tracks w)) w).

Definition get_fav_tracks : M (list fav_row) := get db_favorites.

Definition get_root_dirs : M (list string) := get db_root_dirs.

(** ** [Populate.remove_modified], lines 103-110 *)

(** The list comprehension of lines 105-107: [os.path.getmtime] raises
    [OSError] on a path that cannot be read, which ends the comprehension at
    the first such track. *)
Fixpoint modified_paths (E : Env) (tracks : list Track.t) : exn + list string :=
  match tracks with
  | [] => inr []
  | t :: ts =>
      match getmtime E (Track.filepath t) with
      | None => inl (OSError (Track.filepath t))
      | Some m =>
          match modified_paths E ts with
          | inl e => inl e
          | inr l => inr (if Z.eqb (Track.last_mod t) m then l
                          else Track.filepath t :: l)
          end
      end
  end.

Definition remove_modified (E : Env) (tracks : list Track.t) : M unit :=
  match modified_paths E tracks with
  | inl e => raise e
  | inr modified =>
      TrackStore.remove_tracks_by_filepaths modified ;;
      remove_tracks_by_filepaths modified
  end.

(** ** [Populate.filter_untagged], lines 112-115

    The result is a Python set; it is kept as a duplicate-free list, in the
    order in which [tag_untagged] will iterate over it. *)
Definition filter_untagged (tracks : list Track.t) (files : list string)
  : list string :=
  let tagged_files := map Track.filepath tracks in
  nodup string_dec (filter (fun f => negb (mem f tagged_files)) files).

(** ** [Populate.tag_untagged], lines 117-158 *)

(** Lines 142-144 and 146-148. *)
Definition add_missing_artist (E : Env) (a : ArtistMinimal.t) : M unit :=
  known <- ArtistStore.artist_exists (ArtistMinimal.artisthash a) ;;
  if negb known
  then ArtistStore.add_artist (new_Artist E (ArtistMinimal.name a))
  else ret tt.

(** Lines 130-152: the body of the loop after the cancellation check.  The
    accumulator is [(tagged_tracks, tagged_count)]. *)
Definition tag_file (E : Env) (fav_tracks : string) (file : string)
  (acc : list Tags.t * nat) : M (list Tags.t * nat) :=
  emit (GetTags file) ;;
  match get_tags E file with
  | Some tags =>
      let track := Track_of_tags tags in
      let track :=
        Track.set_is_favorite (py_in (Track.trackhash track) fav_tracks) track in
      TrackStore.add_track track ;;
      known <- AlbumStore.album_exists (Track.albumhash track) ;;
      (if negb known
       then AlbumStore.add_album (AlbumStore.create_album track)
       else ret tt) ;;
      for_each (Track.artist track) (add_missing_artist E) ;;
      for_each (Track.albumartist track) (add_missing_artist E) ;;
      ret (fst acc ++ [tags], S (snd acc))
  | None =>
      log WARNING "Could not read file: %s" [ArgS file] ;;
      ret acc
  end.

(** [POPULATE_KEY] is written by any thread that starts a new session (line
    46).  A schedule tells, for each iteration of the loop in turn, whether
    such a write landed since the previous check, and with which key; past
    its end no session is started. *)
Definition schedule := list (option string).

Definition interfere (o : option string) : M unit :=
  match o with
  | Some k => modify (set_POPULATE_KEY k)
  | None => ret tt
  end.

(** Lines 126-152. *)
Fixpoint tag_loop (E : Env) (key fav_tracks : string) (sched : schedule)
  (files : list string) (acc : list Tags.t * nat)
  : M (list Tags.t * nat) :=
  match files with
  | [] => ret acc
  | file :: rest =>
      interfere (hd None sched) ;;
      current <- get POPULATE_KEY ;;
      if negb (String.eqb current key)
      then raise (PopulateCancelledError "Populate key changed")
      else
        acc' <- tag_file E fav_tracks file acc ;;
        tag_loop E key fav_tracks (tl sched) rest acc'
  end.

Definition tag_untagged (E : Env) (untagged : list string) (key : string)
  (sched : schedule) : M unit :=
  log INFO "Found %s new tracks" [ArgN (length untagged)] ;;
  fav_rows <- get_fav_tracks ;;
  let fav_tracks := py_join "-" (map fav_hash fav_rows) in
  acc <- tag_loop E key fav_tracks sched untagged ([], 0) ;;
  let tagged_tracks := fst acc in
  let tagged_count := snd acc in
  (if Nat.ltb 0 (length tagged_tracks)
   then log INFO "Adding %s tracks to database"
            [ArgN (length tagged_tracks)] ;;
        insert_many_tracks tagged_tracks
   else ret tt) ;;
  log INFO "Added %s/%s tracks" [ArgN tagged_count; ArgN (length untagged)].

(** ** [get_image] and [ProcessTrackThumbnails], lines 161-179

    The pool maps [get_image] over the albums; the calls are recorded in
    album order (the workers only read the stores). *)
Definition get_image (album : Album.t) : M unit :=
  tracks <- get TrackStore_tracks ;;
  match find (fun t => String.eqb (Track.albumhash t) (Album.albumhash album))
             tracks with
  | Some t => emit (ExtractThumb (Track.filepath t) (Track.image t))
  | None => ret tt
  end.

Definition ProcessTrackThumbnails : M unit :=
  emit (Call TrackThumbnails) ;;
  albums <- get AlbumStore_albums ;;
  for_each albums get_image.

(** ** [Populate.__init__], lines 44-101 *)

(** Lines 63-67. *)
Definition resolve_dirs (E : Env) (dirs_to_scan : list string) : list string :=
  match dirs_to_scan with
  | d :: _ => if String.eqb d "$home" then [USER_HOME_DIR E] else dirs_to_scan
  | [] => dirs_to_scan
  end.

(** Lines 69-72. *)
Definition scan_files (E : Env) (dirs_to_scan : list string) : list string :=
  flat_map (fun _dir => snd (run_fast_scandir E _dir)) dirs_to_scan.

(** Lines 84-101. *)
Definition enrich (E : Env) : M unit :=
  reachable <- get (Ping E) ;;
  emit (Probe reachable) ;;
  tried_to_download_new_images <-
    (if reachable
     then
       try_except (call ArtistImages (CheckArtistImages E))
         is_network_failure
         (log ERROR
            "Internet connection lost. Downloading artist images stopped." []) ;;
       ret true
     else
       log WARNING
         ("No internet connection. Downloading artist images halted for "
          ++ py_str (get_scan_sleep_time E) ++ " seconds.")%string
         [] ;;
       ret false) ;;
  if tried_to_download_new_images
  then call ArtistColors (ProcessArtistColors E)
  else ret tt.

(** Lines 44-75: the session key is published, the known tracks and the
    roots are read, the roots are scanned and stale tracks removed.  The
    result is the untagged set, or [None] for the early return of line 61. *)
Definition detect_changes (E : Env) (key : string)
  : M (option (list string)) :=
  modify (set_POPULATE_KEY key) ;;
  call ValidateTracks (validate_tracks E) ;;
  tracks <- get_all_tracks ;;
  dirs_to_scan <- get_root_dirs ;;
  if Nat.eqb (length dirs_to_scan) 0
  then log WARNING
         "The root directory is not configured. Open the app in your webbrowser to configure."
         [] ;;
       ret None
  else
    let dirs_to_scan := resolve_dirs E dirs_to_scan in
    let files := scan_files E dirs_to_scan in
    remove_modified E tracks ;;
    ret (Some (filter_untagged tracks files)).

(** Lines 80-82. *)
Definition extract (E : Env) : M unit :=
  ProcessTrackThumbnails ;;
  call AlbumColors (ProcessAlbumColors E) ;;
  call ArtistColors (ProcessArtistColors E).

(** Lines 44-101.  [sched] is the only trace of the other threads: the
    sessions they start while this run is in its tag-ingestion loop. *)
Definition Populate (E : Env) (key : string) (sched : schedule) : M unit :=
  found <- detect_changes E key ;;
  match found with
  | None => ret tt
  | Some untagged =>
      (if negb (Nat.eqb (length untagged) 0)
       then tag_untagged E untagged key sched
       else ret tt) ;;
      extract E ;;
      enrich E
  end.

(** ** Functional reading of the tag-ingestion loop

    The effect of the loop on the world, written as plain functions; the
    lemmas below show that [tag_file] and [tag_loop] compute exactly these. *)

(** The string the favourites are joined into, lines 123-124. *)
Definition fav_string (w : World) : string :=
  py_join "-" (map fav_hash (db_favorites w)).

(** The track built at lines 134-135. *)
Definition tagged_track (fav_tracks : string) (tags : Tags.t) : Track.t :=
  Track.set_is_favorite (py_in (Tags.trackhash tags) fav_tracks)
                        (Track_of_tags tags).

Definition add_album_of (t : Track.t) (l : list Album.t) : list Album.t :=
  if mem (Track.albumhash t) (map Album.albumhash l) then l
  else l ++ [AlbumStore.create_album t].

Definition add_missing (E : Env) (l : list Artist.t) (a : ArtistMinimal.t)
  : list Artist.t :=
  if mem (ArtistMinimal.artisthash a) (map Artist.artisthash l) then l
  else l ++ [new_Artist E (ArtistMinimal.name a)].

Definition tag_world (E : Env) (fav_tracks : string) (w : World)
  (file : string) : World :=
  match get_tags E file with
  | None => w
  | Some tags =>
      let t := tagged_track fav_tracks tags in
      mkWorld (POPULATE_KEY w)
              (TrackStore_tracks w ++ [t])
              (add_album_of t (AlbumStore_albums w))
              (fold_left (add_missing E) (Track.albumartist t)
                 (fold_left (add_missing E) (Track.artist t)
                    (ArtistStore_artists w)))
              (db_tracks w) (db_favorites w) (db_root_dirs w)
  end.

Definition tag_events (E : Env) (file : string) : list event :=
  GetTags file ::
  match get_tags E file with
  | Some _ => []
  | None => [Log WARNING "Could not read file: %s" [ArgS file]]
  end.

Definition tag_acc (E : Env) (acc : list Tags.t * nat) (file : string)
  : list Tags.t * nat :=
  match get_tags E file with
  | Some tags => (fst acc ++ [tags], S (snd acc))
  | None => acc
  end.

(** The tag dicts of the files the extractor could read, in order. *)
Definition tagged (E : Env) (files : list string) : list Tags.t :=
  flat_map (fun f => match get_tags E f with Some g => [g] | None => [] end)
           files.

(** The value of [POPULATE_KEY] once a scheduled write, if any, has landed. *)
Definition written (o : option string) (k : string) : string :=
  match o with Some k' => k' | None => k end.

(** The value of [POPULATE_KEY] that the check of iteration [i] (line 127)
    reads, starting from value [k], if the loop gets that far. *)
Fixpoint key_at (sched : schedule) (k : string) (i : nat) : string :=
  let k' := written (hd None sched) k in
  match i with
  | 0 => k'
  | S j => key_at (tl sched) k' j
  end.

(** The files whose check passes: the longest prefix of [files] along which
    every check reads [key]. *)
Fixpoint uncancelled (key : string) (sched : schedule) (k : string)
  (files : list string) : list string :=
  match files with
  | [] => []
  | f :: rest =>
      let k' := written (hd None sched) k in
      if String.eqb k' key then f :: uncancelled key (tl sched) k' rest
      else []
  end.

(** The value of [POPULATE_KEY] when the loop ends or is cancelled. *)
Fixpoint final_key (key : string) (sched : schedule) (k : string)
  (files : list string) : string :=
  match files with
  | [] => k
  | _ :: rest =>
      let k' := written (hd None sched) k in
      if String.eqb k' key then final_key key (tl sched) k' rest else k'
  end.

(** The four collections a run ingests into. *)
Definition catalog (w : World)
  : list Track.t * list Album.t * list Artist.t * list Tags.t :=
  (TrackStore_tracks w, AlbumStore_albums w, ArtistStore_artists w, db_tracks w).

(** Lines 44-82: everything [Populate] does before the enrichment stage.
    The result tells whether the run gets to line 84 ([false] is the early
    return of line 61). *)
Definition before_enrich (E : Env) (key : string) (sched : schedule)
  : M bool :=
  found <- detect_changes E key ;;
  match found with
  | None => ret false
  | Some untagged =>
      (if negb (Nat.eqb (length untagged) 0)
       then tag_untagged E untagged key sched
       else ret tt) ;;
      extract E ;;
      ret true
  end.

Definition is_artist_colors (e : event) : bool :=
  match e with Call ArtistColors => true | _ => false end.

(** How many times the artist colour stage was invoked. *)
Definition artist_color_runs (evs : list event) : nat :=
  length (filter is_artist_colors evs).

(** A stage outside this file that leaves the catalog and the configured
    roots as it found them. *)
Definition keeps_data (f : external) : Prop :=
  forall w, catalog (snd (f w)) = catalog w
            /\ db_root_dirs (snd (f w)) = db_root_dirs w.

(** A stage outside this file that at most removes tracks, and none whose
    file can be read: what it leaves in the Track store and in the
    persistent table is a selection of what it found, rows of readable files
    are all kept, and albums, artists and configured roots are as before. *)
Definition prunes_dead (E : Env) (f : external) : Prop :=
  forall w,
    (exists p, TrackStore_tracks (snd (f w)) = filter p (TrackStore_tracks w))
    /\ (exists q, db_tracks (snd (f w)) = filter q (db_tracks w))
    /\ (forall g, In g (db_tracks w) ->
          getmtime E (Tags.filepath g) <> None ->
          In g (db_tracks (snd (f w))))
    /\ AlbumStore_albums (snd (f w)) = AlbumStore_albums w
    /\ ArtistStore_artists (snd (f w)) = ArtistStore_artists w
    /\ db_root_dirs (snd (f w)) = db_root_dirs w.

(** The same for a computation of the pipeline, whether it returns or
    raises. *)
Definition keeps {A} (m : M A) : Prop :=
  forall s, catalog (world (final (m s))) = catalog (world s)
            /\ db_root_dirs (world (final (m s))) = db_root_dirs (world s).

(** The extraction [get_image] asks for on behalf of an album: the artwork
    of the first track of the store that carries the album's hash, if any. *)
Definition thumb_of (tracks : list Track.t) (album : Album.t) : list event :=
  match find (fun t => String.eqb (Track.albumhash t) (Album.albumhash album))
             tracks with
  | Some t => [ExtractThumb (Track.filepath t) (Track.image t)]
  | None => []
  end.


(** ** A small library to run the pipeline on

    Two roots: [/music] holds two tracks of album A by artist X and a text
    file the tag extractor cannot read; the home directory holds one track
    of album B by artist Y. *)
Module Demo.

Definition X : ArtistMinimal.t := ArtistMinimal.mk "X" "#X".
Definition Y : ArtistMinimal.t := ArtistMinimal.mk "Y" "#Y".

Definition tags_a : Tags.t :=
  Tags.mk "/music/a.mp3" 10 "1a2b3c" "albA" [X] [X] "albA.webp".
Definition tags_b : Tags.t :=
  Tags.mk "/music/b.mp3" 10 "4d5e6f" "albA" [X] [X] "albA.webp".
Definition tags_x : Tags.t :=
  Tags.mk "/home/u/x.mp3" 10 "a2b" "albB" [Y] [Y] "albB.webp".

Definition scandir (d : string) : list string * list string :=
  if String.eqb d "/music"
  then ([], ["/music/a.mp3"; "/music/b.mp3"; "/music/c.txt"])
  else if String.eqb d "/home/u" then ([], ["/home/u/x.mp3"])
  else ([], []).

Definition mtime (f : string) : option Z :=
  if mem f ["/music/a.mp3"; "/music/b.mp3"; "/music/c.txt"; "/home/u/x.mp3"]
  then Some 10%Z else None.

Definition tags_of (f : string) : option Tags.t :=
  if String.eqb f "/music/a.mp3" then Some tags_a
  else if String.eqb f "/music/b.mp3" then Some tags_b
  else if String.eqb f "/home/u/x.mp3" then Some tags_x
  else None.

Definition hash (name : string) : string := ("#" ++ name)%string.

Definition quiet : external := fun w => (Returned, w).

Definition failing (e : exn) : external := fun w => (Raised e, w).

(** The environment, with the network left open: whether the probe answers
    and what the image download does. *)
Definition env (reachable : bool) (images : external) : Env :=
  mkEnv "/home/u" scandir mtime tags_of hash 300
        quiet quiet quiet images (fun _ => reachable).

Definition empty_world (roots : list string) : World :=
  mkWorld "" [] [] [] [] [] roots.

Definition start (w : World) : St := mkSt w [].

(** The catalog of an earlier scan of [/music], made before [a.mp3] was
    rewritten: its recorded [last_mod] is 9, the file's mtime is now 10. *)
Definition tags_a_old : Tags.t :=
  Tags.mk "/music/a.mp3" 9 "1a2b3c" "albA" [X] [X] "albA.webp".

Definition scanned_before : World :=
  mkWorld "" [Track_of_tags tags_a_old; Track_of_tags tags_b]
          [Album.mk "albA" "albA.webp"] [Artist.mk "X" "#X"]
          [tags_a_old; tags_b] [] ["/music"].

(** No other session is started during the run. *)
Definition alone : schedule := [].

(** A session with key [k] is started just before the check of iteration [i]. *)
Definition superseded_at (i : nat) (k : string) : schedule :=
  repeat None i ++ [Some k].

End Demo.

(** * Properties *)

Unset Implicit Arguments.

(** ** One iteration *)

Lemma for_each_add_missing E (xs : list ArtistMinimal.t) : forall w ev,
  for_each xs (add_missing_artist E) (mkSt w ev)
  = Ok tt (mkSt (set_artists (fold_left (add_missing E) xs (ArtistStore_artists w)) w) ev).
Proof.
  induction xs as [|a xs IH]; intros w ev; simpl.
  - destruct w; reflexivity.
  - unfold bind at 1. unfold add_missing_artist at 1.
    unfold bind, ArtistStore.artist_exists, get; simpl.
    unfold add_missing at 2.
    destruct (mem (ArtistMinimal.artisthash a) (map Artist.artisthash (ArtistStore_artists w)));
      simpl.
    + unfold ret. rewrite <- IH. destruct w; reflexivity.
    + unfold ArtistStore.add_artist, modify; simpl. rewrite IH. simpl.
      destruct w; reflexivity.
Qed.

Lemma tag_file_eq E fav file acc s :
  tag_file E fav file acc s
  = Ok (tag_acc E acc file)
       (mkSt (tag_world E fav (world s) file) (events s ++ tag_events E file)).
Proof.
  destruct s as [w ev].
  unfold tag_file, tag_acc, tag_world, tag_events. simpl.
  destruct (get_tags E file) as [tags|];
    [|unfold bind, emit, log, emit, ret; simpl; now rewrite <- app_assoc].
  unfold bind at 1. unfold emit at 1. simpl.
  unfold bind at 1. unfold TrackStore.add_track, modify; simpl.
  unfold bind at 1. unfold AlbumStore.album_exists, get; simpl.
  unfold add_album_of. simpl.
  destruct (mem (Tags.albumhash tags) (map Album.albumhash (AlbumStore_albums w)));
    simpl.
  - unfold bind at 1. unfold ret at 1.
    unfold bind at 1. rewrite for_each_add_missing. simpl.
    unfold bind at 1. rewrite for_each_add_missing. simpl.
    reflexivity.
  - unfold bind at 1. unfold AlbumStore.add_album, modify; simpl.
    unfold bind at 1. rewrite for_each_add_missing. simpl.
    unfold bind at 1. rewrite for_each_add_missing. simpl.
    reflexivity.
Qed.

(** ** The loop *)

Lemma set_key_same w : set_POPULATE_KEY (POPULATE_KEY w) w = w.
Proof. now destruct w. Qed.

Lemma set_key_twice k1 k2 w :
  set_POPULATE_KEY k1 (set_POPULATE_KEY k2 w) = set_POPULATE_KEY k1 w.
Proof. reflexivity. Qed.

Lemma tag_world_key E fav w f :
  POPULATE_KEY (tag_world E fav w f) = POPULATE_KEY w.
Proof. unfold tag_world. now destruct (get_tags E f). Qed.

Lemma tag_world_set_key E fav k w f :
  tag_world E fav (set_POPULATE_KEY k w) f
  = set_POPULATE_KEY k (tag_world E fav w f).
Proof. unfold tag_world. now destruct (get_tags E f). Qed.

Lemma fold_tag_world_key E fav fs : forall w,
  POPULATE_KEY (fold_left (tag_world E fav) fs w) = POPULATE_KEY w.
Proof.
  induction fs as [|f fs IH]; intros w; simpl; [reflexivity|].
  now rewrite IH, tag_world_key.
Qed.

Lemma fold_tag_world_set_key E fav k fs : forall w,
  fold_left (tag_world E fav) fs (set_POPULATE_KEY k w)
  = set_POPULATE_KEY k (fold_left (tag_world E fav) fs w).
Proof.
  induction fs as [|f fs IH]; intros w; simpl; [reflexivity|].
  now rewrite tag_world_set_key, IH.
Qed.

Lemma interfere_eq o w ev :
  interfere o (mkSt w ev)
  = Ok tt (mkSt (set_POPULATE_KEY (written o (POPULATE_KEY w)) w) ev).
Proof.
  destruct o as [k|]; simpl; [reflexivity|].
  unfold ret. now rewrite set_key_same.
Qed.

(** The loop in closed form: it ingests exactly the files whose check passes,
    in order, and raises if one check fails. *)
Lemma tag_loop_eq E key fav : forall files sched acc w ev,
  tag_loop E key fav sched files acc (mkSt w ev)
  = let done := uncancelled key sched (POPULATE_KEY w) files in
    let s' :=
      mkSt (set_POPULATE_KEY (final_key key sched (POPULATE_KEY w) files)
              (fold_left (tag_world E fav) done w))
           (ev ++ flat_map (tag_events E) done) in
    if Nat.eqb (length done) (length files)
    then Ok (fold_left (tag_acc E) done acc) s'
    else Raise (PopulateCancelledError "Populate key changed") s'.
Proof.
  induction files as [|f rest IH]; intros sched acc w ev.
  - simpl. unfold ret. now rewrite set_key_same, app_nil_r.
  - cbn [tag_loop uncancelled final_key].
    unfold bind at 1. rewrite interfere_eq.
    unfold bind at 1. unfold get at 1. cbn [world POPULATE_KEY set_POPULATE_KEY].
    set (k' := written (hd None sched) (POPULATE_KEY w)).
    destruct (String.eqb k' key) eqn:Hk; cbn [negb].
    + unfold bind at 1. rewrite tag_file_eq. cbn [world events].
      rewrite IH. cbn zeta.
      rewrite tag_world_key. cbn [POPULATE_KEY set_POPULATE_KEY].
      cbn [length fold_left flat_map Nat.eqb].
      rewrite tag_world_set_key, fold_tag_world_set_key, set_key_twice.
      rewrite <- app_assoc. reflexivity.
    + cbn [length Nat.eqb fold_left flat_map]. unfold raise.
      now rewrite app_nil_r.
Qed.

(** ** Root directories (lines 52-72) *)

(** C9, as the code has it: when the first configured root is the sentinel
    ["$home"], the scan covers the user's home directory and nothing else,
    whatever other roots are listed after it; otherwise it covers exactly
    the files beneath the listed roots, each taken as written. *)
Theorem scan_roots (E : Env) (d : string) (rest : list string) :
  (d = "$home" ->
   scan_files E (resolve_dirs E (d :: rest))
   = snd (run_fast_scandir E (USER_HOME_DIR E)))
  /\ (d <> "$home" ->
      forall f, In f (scan_files E (resolve_dirs E (d :: rest)))
                <-> exists r, In r (d :: rest)
                              /\ In f (snd (run_fast_scandir E r))).
Proof.
  split.
  - intros ->. unfold resolve_dirs, scan_files. simpl. now rewrite app_nil_r.
  - intros Hd f. unfold resolve_dirs, scan_files.
    destruct (String.eqb_spec d "$home") as [Heq|_]; [contradiction|].
    rewrite in_flat_map. reflexivity.
Qed.

Lemma scan_roots_witness :
  scan_files (Demo.env true Demo.quiet)
    (resolve_dirs (Demo.env true Demo.quiet) ["$home"; "/music"])
  = ["/home/u/x.mp3"]
  /\ (In "/music/b.mp3"
        (scan_files (Demo.env true Demo.quiet)
           (resolve_dirs (Demo.env true Demo.quiet) ["/music"; "/home/u"]))).
Proof.
  split.
  - exact (proj1 (scan_roots (Demo.env true Demo.quiet) "$home" ["/music"])
             eq_refl).
  - apply (proj2 (scan_roots (Demo.env true Demo.quiet) "/music" ["/home/u"])).
    + discriminate.
    + exists "/music". split; simpl; auto.
Defined.

(** C9 as the spec states it fails: with roots ["$home"; "/music"] the root
    [/music] is configured, is not the sentinel, holds [/music/a.mp3], and
    yet that file is not among the scanned files; the run ingests the home
    directory only. *)
Lemma root_after_home_dropped :
  In "/music" ["$home"; "/music"]
  /\ In "/music/a.mp3"
        (snd (run_fast_scandir (Demo.env true Demo.quiet) "/music"))
  /\ ~ In "/music/a.mp3"
        (scan_files (Demo.env true Demo.quiet)
           (resolve_dirs (Demo.env true Demo.quiet) ["$home"; "/music"]))
  /\ map Track.filepath
       (TrackStore_tracks
          (world (final (Populate (Demo.env true Demo.quiet) "K1" Demo.alone
                           (Demo.start (Demo.empty_world ["$home"; "/music"]))))))
     = ["/home/u/x.mp3"].
Proof.
  split; [simpl; auto|]. split; [simpl; auto|]. split.
  - vm_compute. intros [H|[]]. discriminate H.
  - vm_compute. reflexivity.
Qed.

(** ** Enrichment (lines 84-101) *)

Lemma call_eq st (f : external) s :
  call st f s
  = match fst (f (world s)) with
    | Returned => Ok tt (mkSt (snd (f (world s))) (events s ++ [Call st]))
    | Raised e => Raise e (mkSt (snd (f (world s))) (events s ++ [Call st]))
    end.
Proof. unfold call. now destruct (f (world s)) as [[|e] w']. Qed.

Lemma Populate_before_enrich E key sched s0 :
  Populate E key sched s0
  = (reached <- before_enrich E key sched ;;
     if reached then enrich E else ret tt) s0.
Proof.
  unfold Populate, before_enrich, bind.
  destruct (detect_changes E key s0) as [[untagged|] s1|e s1]; try reflexivity.
  destruct ((if negb (Nat.eqb (length untagged) 0)
             then tag_untagged E untagged key sched else ret tt) s1)
    as [[] s2|e s2]; try reflexivity.
  destruct (extract E s2) as [[] s3|e s3]; reflexivity.
Qed.

Lemma enrich_failure E s e w' :
  Ping E (world s) = true ->
  CheckArtistImages E (world s) = (Raised e, w') ->
  is_network_failure e = true ->
  enrich E s
  = call ArtistColors (ProcessArtistColors E)
      (mkSt w' (events s ++
                [Probe true; Call ArtistImages;
                 Log ERROR
                   "Internet connection lost. Downloading artist images stopped."
                   []])).
Proof.
  intros Hp Hc Hn. destruct s as [w ev]. simpl in *.
  unfold enrich, try_except, bind, get, log, emit, call, ret. simpl.
  rewrite Hp. simpl. rewrite Hc. simpl. rewrite Hn. simpl.
  repeat rewrite <- app_assoc. reflexivity.
Qed.

(** C6: a connection failure or read timeout raised by the artist-image
    download is caught and logged; the pipeline goes on to its next stage in
    exactly the world the failed download left, so the handler touches no
    Track, Album or Artist; nothing is raised out of [Populate] when that
    next stage returns; and when the two stages involved keep the catalog,
    the run ends with the catalog it had when enrichment began. *)
Theorem enrichment_failure_isolated (E : Env) (key : string) (sched : schedule)
  (s0 s : St) (e : exn) (w' : World) :
  before_enrich E key sched s0 = Ok true s ->
  Ping E (world s) = true ->
  CheckArtistImages E (world s) = (Raised e, w') ->
  is_network_failure e = true ->
  let logged :=
    events s ++ [Probe true; Call ArtistImages;
                 Log ERROR
                   "Internet connection lost. Downloading artist images stopped."
                   []] in
  Populate E key sched s0
  = call ArtistColors (ProcessArtistColors E) (mkSt w' logged)
  /\ (forall w'', ProcessArtistColors E w' = (Returned, w'') ->
        Populate E key sched s0
        = Ok tt (mkSt w'' (logged ++ [Call ArtistColors])))
  /\ (catalog w' = catalog (world s) ->
      catalog (snd (ProcessArtistColors E w')) = catalog w' ->
      catalog (world (final (Populate E key sched s0))) = catalog (world s)).
Proof.
  intros Hb Hp Hc Hn logged.
  assert (HP : Populate E key sched s0
               = call ArtistColors (ProcessArtistColors E) (mkSt w' logged)).
  { rewrite Populate_before_enrich. unfold bind at 1. rewrite Hb.
    now apply (enrich_failure E s e w'). }
  split; [exact HP|]. split.
  - intros w'' Hcol. rewrite HP, call_eq. simpl. now rewrite Hcol.
  - intros Hk1 Hk2. rewrite HP, call_eq. simpl.
    destruct (fst (ProcessArtistColors E w')); simpl; congruence.
Qed.

Lemma enrichment_failure_isolated_witness :
  exists s',
    Populate (Demo.env true (Demo.failing ReadTimeout)) "K1" Demo.alone
      (Demo.start (Demo.empty_world ["/music"; "/home/u"]))
    = Ok tt s'.
Proof.
  destruct (before_enrich (Demo.env true (Demo.failing ReadTimeout)) "K1"
              Demo.alone (Demo.start (Demo.empty_world ["/music"; "/home/u"])))
    as [[|] s|e s] eqn:Hb; try (vm_compute in Hb; discriminate Hb).
  assert (Hw : CheckArtistImages (Demo.env true (Demo.failing ReadTimeout))
                 (world s) = (Raised ReadTimeout, world s)) by reflexivity.
  destruct (enrichment_failure_isolated _ _ _ _ _ _ _ Hb eq_refl Hw eq_refl)
    as (_ & H & _).
  eexists. apply H. reflexivity.
Defined.

(** C7, as the code has it: the artist colour stage is invoked again after
    the enrichment stage exactly when the download was attempted, that is
    when the probe answered reachable and the download either returned or
    failed with a connection failure or read timeout (which line 90
    absorbs); it is not invoked again when the probe answered unreachable. *)
Theorem recolor_iff_download_tried (E : Env) (s : St) :
  artist_color_runs (events (final (enrich E s)))
  = artist_color_runs (events s)
    + (if Ping E (world s)
       then match fst (CheckArtistImages E (world s)) with
            | Returned => 1
            | Raised e => if is_network_failure e then 1 else 0
            end
       else 0).
Proof.
  destruct s as [w ev].
  unfold enrich, try_except, bind, get, log, emit, call, ret. simpl.
  destruct (Ping E w); simpl.
  - destruct (CheckArtistImages E w) as [[|e] w']; simpl.
    + destruct (ProcessArtistColors E w') as [[|e'] w'']; simpl;
        unfold artist_color_runs; repeat rewrite filter_app;
        repeat rewrite length_app; simpl; lia.
    + destruct (is_network_failure e); simpl.
      * destruct (ProcessArtistColors E w') as [[|e'] w'']; simpl;
          unfold artist_color_runs; repeat rewrite filter_app;
          repeat rewrite length_app; simpl; lia.
      * unfold artist_color_runs; repeat rewrite filter_app;
          repeat rewrite length_app; simpl; lia.
  - unfold artist_color_runs; repeat rewrite filter_app;
      repeat rewrite length_app; simpl; lia.
Qed.

(** C7 as the spec states it fails: the download raises a connection error,
    so no new image is obtained, and the artist colour stage runs a second
    time all the same. *)
Lemma recolor_after_failed_download :
  events (final (Populate (Demo.env true (Demo.failing RequestConnectionError))
                   "K1" Demo.alone
                   (Demo.start (Demo.empty_world ["/home/u"]))))
  = [Call ValidateTracks;
     Log INFO "Found %s new tracks" [ArgN 1];
     GetTags "/home/u/x.mp3";
     Log INFO "Adding %s tracks to database" [ArgN 1];
     Log INFO "Added %s/%s tracks" [ArgN 1; ArgN 1];
     Call TrackThumbnails;
     ExtractThumb "/home/u/x.mp3" "albB.webp";
     Call AlbumColors;
     Call ArtistColors;
     Probe true;
     Call ArtistImages;
     Log ERROR "Internet connection lost. Downloading artist images stopped." [];
     Call ArtistColors].
Proof. vm_compute. reflexivity. Qed.

(** ** Stale tracks (lines 103-110) *)

Lemma mem_In x xs : mem x xs = true <-> In x xs.
Proof.
  unfold mem. rewrite existsb_exists. split.
  - intros (y & Hy & He). apply String.eqb_eq in He. now subst.
  - intros H. exists x. split; [assumption|apply String.eqb_refl].
Qed.

Lemma mem_false x xs : mem x xs = false <-> ~ In x xs.
Proof.
  rewrite <- mem_In. destruct (mem x xs); split.
  - discriminate.
  - intros H. exfalso. now apply H.
  - intros _ H. discriminate H.
  - reflexivity.
Qed.

Lemma modified_paths_readable E tracks :
  (forall t, In t tracks -> getmtime E (Track.filepath t) <> None) ->
  exists modified,
    modified_paths E tracks = inr modified
    /\ forall p, In p modified
                 <-> exists t, In t tracks /\ Track.filepath t = p
                               /\ getmtime E p <> Some (Track.last_mod t).
Proof.
  induction tracks as [|t ts IH]; intros Hr.
  - exists []. split; [reflexivity|]. intros p; split; [intros []|].
    intros (t & [] & _).
  - destruct IH as (l & Hl & Hin).
    { intros u Hu. apply Hr. now right. }
    simpl. rewrite Hl.
    destruct (getmtime E (Track.filepath t)) as [m|] eqn:Hm.
    2:{ exfalso. apply (Hr t); [now left|assumption]. }
    destruct (Z.eqb_spec (Track.last_mod t) m) as [Heq|Hne].
    + exists l. split; [reflexivity|]. intros p. rewrite Hin. split.
      * intros (u & Hu & Hp & Hs). exists u. auto.
      * intros (u & [Hu|Hu] & Hp & Hs).
        -- subst u p. exfalso. apply Hs. now rewrite Hm, Heq.
        -- exists u. auto.
    + exists (Track.filepath t :: l). split; [reflexivity|]. intros p. split.
      * intros [Hp|Hp].
        -- subst p. exists t. split; [now left|]. split; [reflexivity|].
           rewrite Hm. intros H. injection H as H. now apply Hne.
        -- apply Hin in Hp. destruct Hp as (u & Hu & Hp & Hs). exists u. auto.
      * intros (u & [Hu|Hu] & Hp & Hs).
        -- subst u. now left.
        -- right. apply Hin. exists u. auto.
Qed.

Lemma modified_paths_unreadable E tracks t :
  In t tracks -> getmtime E (Track.filepath t) = None ->
  exists p, modified_paths E tracks = inl (OSError p).
Proof.
  induction tracks as [|u us IH]; intros Hin Hn; [destruct Hin|].
  simpl. destruct (getmtime E (Track.filepath u)) as [m|] eqn:Hm.
  - destruct Hin as [->|Hin]; [congruence|].
    destruct (IH Hin Hn) as (p & Hp). rewrite Hp. now exists p.
  - now exists (Track.filepath u).
Qed.

(** C4, as the code has it: when the file of every known track can be read,
    [remove_modified] returns, and every known track whose recorded
    [last_mod] differs from the file's current mtime is gone, keyed by
    filepath, from the in-memory store and from the persistent table, while
    entries under any other filepath stay, albums and artists are untouched
    and nothing has been ingested yet. *)
Theorem remove_modified_spec (E : Env) (tracks : list Track.t) (s : St) :
  (forall t, In t tracks -> getmtime E (Track.filepath t) <> None) ->
  exists modified,
    (forall p, In p modified
               <-> exists t, In t tracks /\ Track.filepath t = p
                             /\ getmtime E p <> Some (Track.last_mod t))
    /\ remove_modified E tracks s
       = Ok tt
           (mkSt
              (mkWorld (POPULATE_KEY (world s))
                 (filter (fun t => negb (mem (Track.filepath t) modified))
                    (TrackStore_tracks (world s)))
                 (AlbumStore_albums (world s))
                 (ArtistStore_artists (world s))
                 (filter (fun g => negb (mem (Tags.filepath g) modified))
                    (db_tracks (world s)))
                 (db_favorites (world s)) (db_root_dirs (world s)))
              (events s))
    /\ (forall t, In t tracks ->
          getmtime E (Track.filepath t) <> Some (Track.last_mod t) ->
          ~ In (Track.filepath t)
              (map Track.filepath
                 (TrackStore_tracks (world (final (remove_modified E tracks s)))))
          /\ ~ In (Track.filepath t)
                 (map Tags.filepath
                    (db_tracks (world (final (remove_modified E tracks s)))))).
Proof.
  intros Hr. destruct (modified_paths_readable E tracks Hr) as (l & Hl & Hin).
  exists l. split; [exact Hin|].
  assert (Heq : remove_modified E tracks s
       = Ok tt
           (mkSt
              (mkWorld (POPULATE_KEY (world s))
                 (filter (fun t => negb (mem (Track.filepath t) l))
                    (TrackStore_tracks (world s)))
                 (AlbumStore_albums (world s))
                 (ArtistStore_artists (world s))
                 (filter (fun g => negb (mem (Tags.filepath g) l))
                    (db_tracks (world s)))
                 (db_favorites (world s)) (db_root_dirs (world s)))
              (events s))).
  { unfold remove_modified. rewrite Hl. destruct s as [w ev]. reflexivity. }
  split; [exact Heq|].
  intros t Ht Hs. rewrite Heq. simpl.
  assert (Hp : In (Track.filepath t) l).
  { apply Hin. exists t. auto. }
  split; intros Hc; apply in_map_iff in Hc; destruct Hc as (u & Hu & Hf);
    apply filter_In in Hf; destruct Hf as (_ & Hf);
    apply negb_true_iff, mem_false in Hf; apply Hf; now rewrite Hu.
Qed.

Lemma remove_modified_spec_witness :
  exists modified,
    remove_modified (Demo.env true Demo.quiet)
      [Track_of_tags (Tags.mk "/music/a.mp3" 9 "1a2b3c" "albA" [] [] "");
       Track_of_tags Demo.tags_b]
      (mkSt (mkWorld "K1"
               [Track_of_tags (Tags.mk "/music/a.mp3" 9 "1a2b3c" "albA" [] [] "");
                Track_of_tags Demo.tags_b]
               [] []
               [Tags.mk "/music/a.mp3" 9 "1a2b3c" "albA" [] [] ""; Demo.tags_b]
               [] ["/music"]) [])
    = Ok tt
        (mkSt (mkWorld "K1"
                 (filter (fun t => negb (mem (Track.filepath t) modified))
                    [Track_of_tags
                       (Tags.mk "/music/a.mp3" 9 "1a2b3c" "albA" [] [] "");
                     Track_of_tags Demo.tags_b])
                 [] []
                 (filter (fun g => negb (mem (Tags.filepath g) modified))
                    [Tags.mk "/music/a.mp3" 9 "1a2b3c" "albA" [] [] "";
                     Demo.tags_b])
                 [] ["/music"]) []).
Proof.
  destruct (remove_modified_spec (Demo.env true Demo.quiet)
      [Track_of_tags (Tags.mk "/music/a.mp3" 9 "1a2b3c" "albA" [] [] "");
       Track_of_tags Demo.tags_b]
      (mkSt (mkWorld "K1"
               [Track_of_tags (Tags.mk "/music/a.mp3" 9 "1a2b3c" "albA" [] [] "");
                Track_of_tags Demo.tags_b]
               [] []
               [Tags.mk "/music/a.mp3" 9 "1a2b3c" "albA" [] [] ""; Demo.tags_b]
               [] ["/music"]) [])) as (l & _ & H & _).
  - intros t [<-|[<-|[]]]; vm_compute; discriminate.
  - exists l. exact H.
Defined.

(** C4 as the spec states it fails: the file of a known track has been
    deleted from disk; [remove_modified] raises the [OSError] of
    [os.path.getmtime] and deletes nothing, so the in-memory store and the
    persistent table still hold an entry for that filepath. *)
Lemma deleted_file_not_removed :
  remove_modified (Demo.env true Demo.quiet)
    [Track_of_tags (Tags.mk "/music/gone.mp3" 10 "77aa" "albA" [] [] "")]
    (mkSt (mkWorld "K1"
             [Track_of_tags (Tags.mk "/music/gone.mp3" 10 "77aa" "albA" [] [] "")]
             [] []
             [Tags.mk "/music/gone.mp3" 10 "77aa" "albA" [] [] ""]
             [] ["/music"]) [])
  = Raise (OSError "/music/gone.mp3")
      (mkSt (mkWorld "K1"
               [Track_of_tags (Tags.mk "/music/gone.mp3" 10 "77aa" "albA" [] [] "")]
               [] []
               [Tags.mk "/music/gone.mp3" 10 "77aa" "albA" [] [] ""]
               [] ["/music"]) [])
  /\ getmtime (Demo.env true Demo.quiet) "/music/gone.mp3" = None.
Proof. split; reflexivity. Qed.

(** ** The whole of [tag_untagged] *)

Lemma tag_untagged_eq E untagged key sched w ev :
  tag_untagged E untagged key sched (mkSt w ev)
  = let fav := fav_string w in
    let done := uncancelled key sched (POPULATE_KEY w) untagged in
    let w1 :=
      set_POPULATE_KEY (final_key key sched (POPULATE_KEY w) untagged)
        (fold_left (tag_world E fav) done w) in
    let ev1 :=
      ev ++ Log INFO "Found %s new tracks" [ArgN (length untagged)]
            :: flat_map (tag_events E) done in
    let acc := fold_left (tag_acc E) done ([], 0) in
    if Nat.eqb (length done) (length untagged)
    then
      if Nat.ltb 0 (length (fst acc))
      then Ok tt
             (mkSt (set_db_tracks (db_tracks w1 ++ fst acc) w1)
                (ev1 ++ [Log INFO "Adding %s tracks to database"
                           [ArgN (length (fst acc))];
                         Log INFO "Added %s/%s tracks"
                           [ArgN (snd acc); ArgN (length untagged)]]))
      else Ok tt
             (mkSt w1
                (ev1 ++ [Log INFO "Added %s/%s tracks"
                           [ArgN (snd acc); ArgN (length untagged)]]))
    else Raise (PopulateCancelledError "Populate key changed") (mkSt w1 ev1).
Proof.
  unfold tag_untagged.
  unfold bind at 1. unfold log at 1, emit at 1. cbn [world events].
  unfold bind at 1. unfold get_fav_tracks at 1, get at 1. cbn [world events].
  unfold bind at 1. fold (fav_string w). rewrite tag_loop_eq. cbn zeta.
  cbn [POPULATE_KEY].
  rewrite <- app_assoc. cbn [app].
  destruct (Nat.eqb (length (uncancelled key sched (POPULATE_KEY w) untagged))
              (length untagged)); [|reflexivity].
  destruct (Nat.ltb 0 (length (fst (fold_left (tag_acc E)
              (uncancelled key sched (POPULATE_KEY w) untagged) ([], 0))))).
  - unfold bind, log, emit, insert_many_tracks, modify. cbn [world events].
    repeat rewrite <- app_assoc. reflexivity.
  - unfold bind, log, emit, ret. cbn [world events]. reflexivity.
Qed.

Lemma fold_tag_world_tracks E fav fs : forall w,
  TrackStore_tracks (fold_left (tag_world E fav) fs w)
  = TrackStore_tracks w ++ map (tagged_track fav) (tagged E fs).
Proof.
  induction fs as [|f fs IH]; intros w; simpl.
  - now rewrite app_nil_r.
  - rewrite IH. unfold tag_world, tagged. simpl.
    destruct (get_tags E f) as [g|]; simpl; [|reflexivity].
    now rewrite <- app_assoc.
Qed.

Lemma fold_tag_world_db E fav fs : forall w,
  db_tracks (fold_left (tag_world E fav) fs w) = db_tracks w
  /\ db_favorites (fold_left (tag_world E fav) fs w) = db_favorites w
  /\ db_root_dirs (fold_left (tag_world E fav) fs w) = db_root_dirs w.
Proof.
  induction fs as [|f fs IH]; intros w; simpl; [auto|].
  destruct (IH (tag_world E fav w f)) as (H1 & H2 & H3).
  rewrite H1, H2, H3. unfold tag_world.
  destruct (get_tags E f); auto.
Qed.

Lemma fold_tag_acc E fs : forall acc,
  fold_left (tag_acc E) fs acc
  = (fst acc ++ tagged E fs, snd acc + length (tagged E fs)).
Proof.
  induction fs as [|f fs IH]; intros [l n]; simpl.
  - now rewrite app_nil_r, Nat.add_0_r.
  - rewrite IH. unfold tag_acc, tagged. simpl.
    destruct (get_tags E f) as [g|]; simpl.
    + rewrite <- app_assoc. simpl. f_equal. lia.
    + reflexivity.
Qed.

(** ** Which checks pass *)

Lemma uncancelled_prefix key : forall files sched k,
  exists rest, files = uncancelled key sched k files ++ rest.
Proof.
  induction files as [|f fs IH]; intros sched k; simpl.
  - now exists [].
  - destruct (String.eqb (written (hd None sched) k) key).
    + destruct (IH (tl sched) (written (hd None sched) k)) as (rest & Hr).
      exists rest. simpl. now rewrite <- Hr.
    + now exists (f :: fs).
Qed.

Lemma uncancelled_all key : forall files sched k,
  length (uncancelled key sched k files) = length files
  <-> forall i, i < length files -> key_at sched k i = key.
Proof.
  induction files as [|f fs IH]; intros sched k; simpl.
  - split; [intros _ i Hi; lia|reflexivity].
  - destruct (String.eqb_spec (written (hd None sched) k) key) as [Hk|Hk].
    + simpl. split.
      * intros Hl i Hi. destruct i as [|j]; simpl; [exact Hk|].
        apply IH; [lia|lia].
      * intros Hall. f_equal. apply IH. intros i Hi.
        apply (Hall (S i)). lia.
    + simpl. split; [discriminate|].
      intros Hall. exfalso. apply Hk. apply (Hall 0). lia.
Qed.

Lemma uncancelled_stop key : forall pre sched k f post,
  (forall j, j < length pre -> key_at sched k j = key) ->
  key_at sched k (length pre) <> key ->
  uncancelled key sched k (pre ++ f :: post) = pre
  /\ final_key key sched k (pre ++ f :: post) = key_at sched k (length pre).
Proof.
  induction pre as [|p pre IH]; intros sched k f post Hall Hne; simpl in *.
  - destruct (String.eqb_spec (written (hd None sched) k) key) as [Hk|Hk];
      [contradiction|]. split; reflexivity.
  - destruct (String.eqb_spec (written (hd None sched) k) key) as [Hk|Hk].
    + destruct (IH (tl sched) (written (hd None sched) k) f post) as (H1 & H2).
      * intros j Hj. apply (Hall (S j)). lia.
      * exact Hne.
      * rewrite H1, H2. split; reflexivity.
    + exfalso. apply Hk. apply (Hall 0). lia.
Qed.

Lemma key_at_same key : forall i sched k,
  k = key -> (forall k', In (Some k') sched -> k' = key) ->
  key_at sched k i = key.
Proof.
  assert (Hw : forall sched k, k = key ->
            (forall k', In (Some k') sched -> k' = key) ->
            written (hd None sched) k = key).
  { intros [|[k'|] sched] k Hk Hs; simpl; try assumption.
    apply Hs. now left. }
  induction i as [|i IH]; intros sched k Hk Hs; simpl.
  - now apply Hw.
  - apply IH; [now apply Hw|].
    intros k' Hin. apply Hs. destruct sched; [destruct Hin|now right].
Qed.

(** ** Cancellation *)

(** C1: when the check at the start of an iteration reads a session key
    other than the one the loop captured, [tag_untagged] raises
    [PopulateCancelledError], which the network-failure handler does not
    take for one of its own; neither that file nor any later one is handed
    to the tag extractor; and the world is the one the earlier iterations
    built, with nothing but the key changed, so every track added to the
    in-memory store before the key change is still in it. *)
Theorem cancellation_stops_loop (E : Env) (key : string) (sched : schedule)
  (pre : list string) (file : string) (post : list string)
  (w : World) (ev : list event) :
  (forall j, j < length pre -> key_at sched (POPULATE_KEY w) j = key) ->
  key_at sched (POPULATE_KEY w) (length pre) <> key ->
  tag_untagged E (pre ++ file :: post) key sched (mkSt w ev)
  = Raise (PopulateCancelledError "Populate key changed")
      (mkSt (set_POPULATE_KEY (key_at sched (POPULATE_KEY w) (length pre))
               (fold_left (tag_world E (fav_string w)) pre w))
            (ev ++ Log INFO "Found %s new tracks"
                     [ArgN (length (pre ++ file :: post))]
                   :: flat_map (tag_events E) pre))
  /\ is_network_failure (PopulateCancelledError "Populate key changed") = false
  /\ TrackStore_tracks
       (world (final (tag_untagged E (pre ++ file :: post) key sched
                        (mkSt w ev))))
     = TrackStore_tracks w ++ map (tagged_track (fav_string w)) (tagged E pre)
  /\ (forall g,
        In (GetTags g)
           (events (final (tag_untagged E (pre ++ file :: post) key sched
                             (mkSt w ev)))) ->
        In (GetTags g) ev \/ In g pre).
Proof.
  intros Hall Hne.
  destruct (uncancelled_stop key pre sched (POPULATE_KEY w) file post Hall Hne)
    as (Hu & Hf).
  assert (Heq : tag_untagged E (pre ++ file :: post) key sched (mkSt w ev)
    = Raise (PopulateCancelledError "Populate key changed")
      (mkSt (set_POPULATE_KEY (key_at sched (POPULATE_KEY w) (length pre))
               (fold_left (tag_world E (fav_string w)) pre w))
            (ev ++ Log INFO "Found %s new tracks"
                     [ArgN (length (pre ++ file :: post))]
                   :: flat_map (tag_events E) pre))).
  { rewrite tag_untagged_eq. cbn zeta. rewrite Hu, Hf.
    replace (Nat.eqb (length pre) (length (pre ++ file :: post))) with false.
    - reflexivity.
    - symmetry. apply Nat.eqb_neq. rewrite length_app. simpl. lia. }
  split; [exact Heq|]. split; [reflexivity|]. rewrite Heq. simpl. split.
  - apply fold_tag_world_tracks.
  - intros g Hg. apply in_app_or in Hg. destruct Hg as [Hg|Hg]; [now left|].
    right. destruct Hg as [Hg|Hg]; [discriminate Hg|].
    apply in_flat_map in Hg. destruct Hg as (f & Hf' & Hg).
    unfold tag_events in Hg. destruct Hg as [Hg|Hg].
    + injection Hg as <-. exact Hf'.
    + destruct (get_tags E f); simpl in Hg;
        [destruct Hg|destruct Hg as [Hg|[]]; discriminate Hg].
Qed.

Lemma cancellation_stops_loop_witness :
  tag_untagged (Demo.env true Demo.quiet)
    (["/music/a.mp3"] ++ "/music/b.mp3" :: ["/music/c.txt"]) "K1"
    (Demo.superseded_at 1 "K2") (mkSt (mkWorld "K1" [] [] [] [] [] ["/music"]) [])
  = Raise (PopulateCancelledError "Populate key changed")
      (mkSt (mkWorld "K2" [Track_of_tags Demo.tags_a]
               [Album.mk "albA" "albA.webp"] [Artist.mk "X" "#X"]
               [] [] ["/music"])
            [Log INFO "Found %s new tracks" [ArgN 3]; GetTags "/music/a.mp3"]).
Proof.
  refine (proj1 (cancellation_stops_loop (Demo.env true Demo.quiet) "K1"
                   (Demo.superseded_at 1 "K2")
                   ["/music/a.mp3"] "/music/b.mp3" ["/music/c.txt"]
                   (mkWorld "K1" [] [] [] [] [] ["/music"]) [] _ _)).
  - intros j Hj. simpl in Hj. assert (j = 0) as -> by lia. reflexivity.
  - simpl. discriminate.
Defined.

(** [tag_untagged] either completes or is cancelled, according to whether
    every check passes. *)
Lemma tag_untagged_cases E untagged key sched w ev :
  (length (uncancelled key sched (POPULATE_KEY w) untagged) = length untagged
   /\ exists s', tag_untagged E untagged key sched (mkSt w ev) = Ok tt s')
  \/ (length (uncancelled key sched (POPULATE_KEY w) untagged)
        <> length untagged
      /\ exists s', tag_untagged E untagged key sched (mkSt w ev)
                    = Raise (PopulateCancelledError "Populate key changed") s').
Proof.
  rewrite tag_untagged_eq. cbn zeta.
  destruct (Nat.eqb_spec
              (length (uncancelled key sched (POPULATE_KEY w) untagged))
              (length untagged)) as [Hl|Hl]; [left|right];
    (split; [exact Hl|]).
  - destruct (Nat.ltb 0 _); eexists; reflexivity.
  - eexists; reflexivity.
Qed.

(** C10: [tag_untagged] raises the cancellation signal if and only if some
    per-file check reads a key that differs from the captured one; it runs
    to completion if and only if every check reads the captured key; it
    raises nothing else; and a session started with the very key the loop
    captured does not cancel it. *)
Theorem cancelled_iff_key_differs (E : Env) (key : string) (sched : schedule)
  (files : list string) (w : World) (ev : list event) :
  ((exists s', tag_untagged E files key sched (mkSt w ev)
               = Raise (PopulateCancelledError "Populate key changed") s')
   <-> exists i, i < length files /\ key_at sched (POPULATE_KEY w) i <> key)
  /\ ((exists s', tag_untagged E files key sched (mkSt w ev) = Ok tt s')
      <-> forall i, i < length files -> key_at sched (POPULATE_KEY w) i = key)
  /\ (forall e s', tag_untagged E files key sched (mkSt w ev) = Raise e s' ->
        e = PopulateCancelledError "Populate key changed")
  /\ (POPULATE_KEY w = key ->
      (forall k, In (Some k) sched -> k = key) ->
      exists s', tag_untagged E files key sched (mkSt w ev) = Ok tt s').
Proof.
  pose proof (uncancelled_all key files sched (POPULATE_KEY w)) as Hall.
  destruct (tag_untagged_cases E files key sched w ev)
    as [(Hl & s1 & Hs1)|(Hl & s1 & Hs1)]; rewrite Hs1.
  - assert (Hok : forall i, i < length files ->
                    key_at sched (POPULATE_KEY w) i = key) by now apply Hall.
    split; [|split; [|split]].
    + split.
      * intros (s' & H). discriminate H.
      * intros (i & Hi & Hne). exfalso. apply Hne. now apply Hok.
    + split; [intros _; exact Hok|intros _; now exists s1].
    + intros e s' H. discriminate H.
    + intros _ _. now exists s1.
  - assert (Hno : ~ (forall i, i < length files ->
                       key_at sched (POPULATE_KEY w) i = key)).
    { intros H. apply Hl. now apply Hall. }
    split; [|split; [|split]].
    + split.
      * intros _.
        (* the first check that fails is found by a bounded search *)
        assert (Hs : forall n, n <= length files ->
                  (forall i, i < n -> key_at sched (POPULATE_KEY w) i = key)
                  \/ exists i, i < length files
                               /\ key_at sched (POPULATE_KEY w) i <> key).
        { induction n as [|n IHn]; intros Hn.
          - left. intros i Hi. lia.
          - destruct IHn as [Hp|Hq]; [lia| |now right].
            destruct (string_dec (key_at sched (POPULATE_KEY w) n) key)
              as [Hk|Hk].
            + left. intros i Hi.
              destruct (Nat.eq_dec i n) as [->|Hin]; [exact Hk|].
              apply Hp. lia.
            + right. exists n. split; [lia|exact Hk]. }
        destruct (Hs (length files) (le_n _)) as [Hp|Hq];
          [contradiction|exact Hq].
      * intros _. now exists s1.
    + split.
      * intros (s' & H). discriminate H.
      * intros H. contradiction.
    + intros e s' H. now injection H as <- _.
    + intros Hk Hs. exfalso. apply Hno. intros i _.
      now apply key_at_same.
Qed.

Lemma cancelled_iff_key_differs_witness :
  exists s',
    tag_untagged (Demo.env true Demo.quiet)
      ["/music/a.mp3"; "/music/b.mp3"] "K1" [None; Some "K1"]
      (mkSt (mkWorld "K1" [] [] [] [] [] ["/music"]) [])
    = Ok tt s'.
Proof.
  apply (proj2 (proj2 (proj2
           (cancelled_iff_key_differs (Demo.env true Demo.quiet) "K1"
              [None; Some "K1"] ["/music/a.mp3"; "/music/b.mp3"]
              (mkWorld "K1" [] [] [] [] [] ["/music"]) [])))).
  - reflexivity.
  - intros k [H|[H|[]]]; [discriminate H|now injection H].
Defined.

Lemma uncancelled_length key files sched k :
  length (uncancelled key sched k files) <= length files.
Proof.
  destruct (uncancelled_prefix key files sched k) as (rest & Hr).
  rewrite Hr at 2. rewrite length_app. lia.
Qed.

(** C5, as the code has it: when a check of the tag-ingestion loop reads a
    changed session key, the cancellation signal leaves [Populate] itself,
    which has no handler for it.  The run ends there: the bulk insert into
    the persistent table is skipped, no later stage (thumbnails, colours,
    enrichment) is invoked, and the in-memory stores keep exactly what the
    completed iterations put there. *)
Theorem cancellation_aborts_run (E : Env) (key : string) (sched : schedule)
  (s0 : St) (untagged : list string) (s1 : St) (i : nat) :
  detect_changes E key s0 = Ok (Some untagged) s1 ->
  i < length untagged ->
  key_at sched (POPULATE_KEY (world s1)) i <> key ->
  Populate E key sched s0
  = Raise (PopulateCancelledError "Populate key changed")
      (mkSt (set_POPULATE_KEY
               (final_key key sched (POPULATE_KEY (world s1)) untagged)
               (fold_left (tag_world E (fav_string (world s1)))
                  (uncancelled key sched (POPULATE_KEY (world s1)) untagged)
                  (world s1)))
            (events s1
             ++ Log INFO "Found %s new tracks" [ArgN (length untagged)]
                :: flat_map (tag_events E)
                     (uncancelled key sched (POPULATE_KEY (world s1)) untagged)))
  /\ length (uncancelled key sched (POPULATE_KEY (world s1)) untagged)
     < length untagged
  /\ db_tracks (world (final (Populate E key sched s0)))
     = db_tracks (world s1)
  /\ TrackStore_tracks (world (final (Populate E key sched s0)))
     = TrackStore_tracks (world s1)
       ++ map (tagged_track (fav_string (world s1)))
            (tagged E (uncancelled key sched (POPULATE_KEY (world s1)) untagged))
  /\ (forall st, In (Call st) (events (final (Populate E key sched s0))) ->
                 In (Call st) (events s1)).
Proof.
  intros Hd Hi Hne.
  assert (Hl : length (uncancelled key sched (POPULATE_KEY (world s1)) untagged)
               <> length untagged).
  { intros H. apply Hne.
    now apply (proj1 (uncancelled_all key untagged sched
                        (POPULATE_KEY (world s1)))). }
  assert (Heq : Populate E key sched s0
  = Raise (PopulateCancelledError "Populate key changed")
      (mkSt (set_POPULATE_KEY
               (final_key key sched (POPULATE_KEY (world s1)) untagged)
               (fold_left (tag_world E (fav_string (world s1)))
                  (uncancelled key sched (POPULATE_KEY (world s1)) untagged)
                  (world s1)))
            (events s1
             ++ Log INFO "Found %s new tracks" [ArgN (length untagged)]
                :: flat_map (tag_events E)
                     (uncancelled key sched (POPULATE_KEY (world s1)) untagged)))).
  { unfold Populate. unfold bind at 1. rewrite Hd.
    replace (Nat.eqb (length untagged) 0) with false
      by (symmetry; apply Nat.eqb_neq; lia).
    cbn [negb]. unfold bind at 1. destruct s1 as [w1 ev1].
    rewrite tag_untagged_eq. cbn zeta. cbn [world events] in *.
    apply Nat.eqb_neq in Hl. rewrite Hl. reflexivity. }
  split; [exact Heq|]. split.
  { pose proof (uncancelled_length key untagged sched
                  (POPULATE_KEY (world s1))). lia. }
  rewrite Heq. cbn [final world events]. split; [|split].
  - apply (fold_tag_world_db E (fav_string (world s1))).
  - apply fold_tag_world_tracks.
  - intros st Hc. apply in_app_or in Hc. destruct Hc as [Hc|Hc]; [exact Hc|].
    exfalso. destruct Hc as [Hc|Hc]; [discriminate Hc|].
    apply in_flat_map in Hc. destruct Hc as (f & _ & Hc).
    unfold tag_events in Hc. destruct Hc as [Hc|Hc]; [discriminate Hc|].
    destruct (get_tags E f); simpl in Hc;
      [destruct Hc|destruct Hc as [Hc|[]]; discriminate Hc].
Qed.

Lemma cancellation_aborts_run_witness :
  exists s',
    Populate (Demo.env true Demo.quiet) "K1" (Demo.superseded_at 1 "K2")
      (Demo.start (Demo.empty_world ["/music"]))
    = Raise (PopulateCancelledError "Populate key changed") s'.
Proof.
  eexists.
  refine (proj1 (cancellation_aborts_run (Demo.env true Demo.quiet) "K1"
                   (Demo.superseded_at 1 "K2")
                   (Demo.start (Demo.empty_world ["/music"]))
                   ["/music/a.mp3"; "/music/b.mp3"; "/music/c.txt"]
                   (mkSt (mkWorld "K1" [] [] [] [] [] ["/music"])
                         [Call ValidateTracks])
                   1 _ _ _)).
  - reflexivity.
  - simpl. lia.
  - simpl. discriminate.
Defined.

(** C5 as the spec states it fails: a session with key [K2] is started while
    the run with key [K1] is in its loop; the run raises
    [PopulateCancelledError] out of [Populate] and none of the stages after
    tag ingestion is invoked. *)
Lemma cancelled_run_skips_later_stages :
  Populate (Demo.env true Demo.quiet) "K1" (Demo.superseded_at 1 "K2")
    (Demo.start (Demo.empty_world ["/music"]))
  = Raise (PopulateCancelledError "Populate key changed")
      (mkSt (mkWorld "K2" [Track_of_tags Demo.tags_a]
               [Album.mk "albA" "albA.webp"] [Artist.mk "X" "#X"]
               [] [] ["/music"])
            [Call ValidateTracks;
             Log INFO "Found %s new tracks" [ArgN 3];
             GetTags "/music/a.mp3"]).
Proof. vm_compute. reflexivity. Qed.

(** ** Substring test against the joined favourites (lines 123-135) *)

Lemma chars_app a b : chars (a ++ b)%string = chars a ++ chars b.
Proof. induction a as [|c a IH]; simpl; [reflexivity|]. now rewrite IH. Qed.

Lemma chars_inj a b : chars a = chars b -> a = b.
Proof.
  intros H. rewrite <- (string_of_list_ascii_of_string a),
    <- (string_of_list_ascii_of_string b). unfold chars in H. now rewrite H.
Qed.

Lemma chars_length s : length (chars s) = String.length s.
Proof. induction s as [|c s IH]; simpl; [reflexivity|]. now rewrite IH. Qed.

Lemma has_char_In c s : has_char c s = true <-> In c (chars s).
Proof.
  induction s as [|d s IH]; simpl.
  - split; [discriminate|intros []].
  - rewrite orb_true_iff, IH, Ascii.eqb_eq. split; intros [H|H]; auto.
Qed.

Lemma prefix_chars n : forall h,
  String.prefix n h = true <-> exists q, chars h = chars n ++ q.
Proof.
  induction n as [|a n IH]; intros h; simpl.
  - destruct h; split; intros _; try reflexivity; eexists; reflexivity.
  - destruct h as [|b h]; simpl.
    + split; [discriminate|]. intros (q & Hq). discriminate Hq.
    + destruct (ascii_dec a b) as [->|Hab].
      * rewrite IH. split; intros (q & Hq); exists q.
        -- now rewrite Hq.
        -- now injection Hq.
      * split; [discriminate|]. intros (q & Hq). injection Hq as Hb _.
        now elim Hab.
Qed.

Lemma py_in_chars n : forall h,
  py_in n h = true <-> exists p q, chars h = p ++ chars n ++ q.
Proof.
  induction h as [|b h IH].
  - cbn [py_in]. destruct (String.prefix n "") eqn:Hp.
    + split; [|reflexivity]. intros _. apply prefix_chars in Hp.
      destruct Hp as (q & Hq). now exists [], q.
    + split; [discriminate|]. intros (p & q & Hq). exfalso.
      assert (String.prefix n "" = true); [|congruence].
      apply prefix_chars. simpl in Hq. symmetry in Hq.
      apply app_eq_nil in Hq. destruct Hq as (-> & Hq). now exists q.
  - cbn [py_in]. destruct (String.prefix n (String b h)) eqn:Hp.
    + split; [|reflexivity]. intros _. apply prefix_chars in Hp.
      destruct Hp as (q & Hq). now exists [], q.
    + rewrite IH. split.
      * intros (p & q & Hq). exists (b :: p), q. simpl. now rewrite Hq.
      * intros ([|c p] & q & Hq).
        -- exfalso. assert (String.prefix n (String b h) = true);
             [|congruence]. apply prefix_chars. now exists q.
        -- simpl in Hq. injection Hq as _ Hq. now exists p, q.
Qed.

Lemma chars_join sep l :
  chars (py_join sep l) = join_chars (chars sep) (map chars l).
Proof.
  unfold py_join. induction l as [|x [|y l] IH]; try reflexivity.
  change (String.concat sep (x :: y :: l))
    with (x ++ sep ++ String.concat sep (y :: l))%string.
  rewrite !chars_app, IH. reflexivity.
Qed.

(** A member of the list occurs in the joined string. *)
Lemma member_in_join sep ns : forall l,
  In ns l -> exists p q, join_chars sep l = p ++ ns ++ q.
Proof.
  induction l as [|x l IH]; intros Hin; [destruct Hin|].
  destruct Hin as [->|Hin].
  - destruct l as [|y l].
    + exists [], []. simpl. now rewrite app_nil_r.
    + exists [], (sep ++ join_chars sep (y :: l)). reflexivity.
  - destruct (IH Hin) as (p & q & Hpq). destruct l as [|y l]; [destruct Hin|].
    exists (x ++ sep ++ p), q.
    change (join_chars sep (x :: y :: l))
      with (x ++ sep ++ join_chars sep (y :: l)).
    rewrite Hpq. now rewrite <- !app_assoc.
Qed.

(** A window without separator, as long as every element, that occurs in
    the joined list is one of the elements. *)
Lemma window_in_join (c : ascii) (ns : list ascii) : forall l,
  ns <> [] -> ~ In c ns ->
  (forall h, In h l -> length h = length ns) ->
  forall p q, join_chars [c] l = p ++ ns ++ q -> In ns l.
Proof.
  intros l Hne Hc. induction l as [|x l IH]; intros Hlen p q Heq.
  - simpl in Heq. symmetry in Heq. apply app_eq_nil in Heq.
    destruct Heq as (_ & Heq). apply app_eq_nil in Heq.
    destruct Heq as (Heq & _). contradiction.
  - assert (Hx : length x = length ns) by (apply Hlen; now left).
    assert (Hsame : forall p' m, x = p' ++ ns ++ m -> In ns (x :: l)).
    { intros p' m Hxm. left. rewrite Hxm in Hx.
      rewrite !length_app in Hx.
      assert (length p' = 0) by lia. assert (length m = 0) by lia.
      destruct p'; [|discriminate]. destruct m; [|discriminate].
      rewrite Hxm. simpl. now rewrite app_nil_r. }
    destruct l as [|y l].
    + simpl in Heq. now apply (Hsame p q).
    + change (join_chars [c] (x :: y :: l))
        with (x ++ [c] ++ join_chars [c] (y :: l)) in Heq.
      apply app_eq_app in Heq. destruct Heq as (m & [(H1 & H2)|(H1 & H2)]).
      * (* the window starts inside [x] *)
        apply app_eq_app in H2. destruct H2 as (m' & [(H3 & H4)|(H3 & H4)]).
        -- (* it ends at the end of [x] or runs over the separator *)
           destruct m' as [|d m'].
           ++ apply (Hsame p []). rewrite H1, H3. now rewrite !app_nil_r.
           ++ exfalso. apply Hc. rewrite H3. simpl in H4.
              injection H4 as <- _. apply in_or_app. right. now left.
        -- (* it ends inside [x] *)
           apply (Hsame p m'). now rewrite H1, H3.
      * (* the window starts after [x] *)
        destruct m as [|d m].
        -- exfalso. simpl in H2. destruct ns as [|a ns]; [now apply Hne|].
           simpl in H2. injection H2 as <- _. apply Hc. now left.
        -- simpl in H2. injection H2 as _ H2. right.
           apply (IH (fun h Hh => Hlen h (or_intror Hh)) m q). exact H2.
Qed.

Lemma py_in_join_member x l : In x l -> py_in x (py_join "-" l) = true.
Proof.
  intros Hin. apply py_in_chars. rewrite chars_join.
  apply member_in_join. now apply in_map.
Qed.

Lemma py_in_join_only_member x l :
  x <> "" -> has_char "-" x = false ->
  (forall h, In h l -> String.length h = String.length x) ->
  py_in x (py_join "-" l) = true -> In x l.
Proof.
  intros Hne Hc Hlen Hin. apply py_in_chars in Hin.
  destruct Hin as (p & q & Hpq). rewrite chars_join in Hpq.
  apply (window_in_join "-" (chars x)) in Hpq.
  - apply in_map_iff in Hpq. destruct Hpq as (h & Hh & Hin).
    apply chars_inj in Hh. now subst h.
  - intros H. apply Hne. apply chars_inj. now rewrite H.
  - intros H. apply has_char_In in H. congruence.
  - intros h Hh. apply in_map_iff in Hh. destruct Hh as (h' & <- & Hh').
    rewrite !chars_length. now apply Hlen.
Qed.

(** The in-memory stores when [tag_untagged] ends, by return or by
    cancellation, are those built by the iterations whose check passed. *)
Lemma tag_untagged_final E untagged key sched w ev :
  TrackStore_tracks
    (world (final (tag_untagged E untagged key sched (mkSt w ev))))
  = TrackStore_tracks
      (fold_left (tag_world E (fav_string w))
         (uncancelled key sched (POPULATE_KEY w) untagged) w)
  /\ AlbumStore_albums
       (world (final (tag_untagged E untagged key sched (mkSt w ev))))
     = AlbumStore_albums
         (fold_left (tag_world E (fav_string w))
            (uncancelled key sched (POPULATE_KEY w) untagged) w)
  /\ ArtistStore_artists
       (world (final (tag_untagged E untagged key sched (mkSt w ev))))
     = ArtistStore_artists
         (fold_left (tag_world E (fav_string w))
            (uncancelled key sched (POPULATE_KEY w) untagged) w).
Proof.
  rewrite tag_untagged_eq. cbn zeta.
  destruct (Nat.eqb _ _); [destruct (Nat.ltb _ _)|]; simpl; auto.
Qed.

Lemma tagged_In E fs f g :
  In f fs -> get_tags E f = Some g -> In g (tagged E fs).
Proof.
  intros Hf Hg. unfold tagged. apply in_flat_map. exists f.
  split; [exact Hf|]. rewrite Hg. now left.
Qed.

(** C2, as the code has it: the track built for a file that is tagged is in
    the store with [is_favorite] set to the result of testing whether its
    trackhash occurs as a substring of the favourite hashes joined with
    ["-"].  So a track whose hash is a favourite is marked; and a track that
    is marked has a favourite hash provided its trackhash is non-empty,
    holds no ["-"], and every favourite hash has its length. *)
Theorem is_favorite_by_substring (E : Env) (key : string) (sched : schedule)
  (files : list string) (w : World) (ev : list event)
  (f : string) (tags : Tags.t) :
  In f (uncancelled key sched (POPULATE_KEY w) files) ->
  get_tags E f = Some tags ->
  In (tagged_track (fav_string w) tags)
     (TrackStore_tracks
        (world (final (tag_untagged E files key sched (mkSt w ev)))))
  /\ Track.trackhash (tagged_track (fav_string w) tags) = Tags.trackhash tags
  /\ Track.is_favorite (tagged_track (fav_string w) tags)
     = py_in (Tags.trackhash tags)
             (py_join "-" (map fav_hash (db_favorites w)))
  /\ (In (Tags.trackhash tags) (map fav_hash (db_favorites w)) ->
      Track.is_favorite (tagged_track (fav_string w) tags) = true)
  /\ (Tags.trackhash tags <> "" ->
      has_char "-" (Tags.trackhash tags) = false ->
      (forall h, In h (map fav_hash (db_favorites w)) ->
                 String.length h = String.length (Tags.trackhash tags)) ->
      Track.is_favorite (tagged_track (fav_string w) tags) = true ->
      In (Tags.trackhash tags) (map fav_hash (db_favorites w))).
Proof.
  intros Hf Hg. split; [|split; [reflexivity|split; [reflexivity|split]]].
  - destruct (tag_untagged_final E files key sched w ev) as (Ht & _).
    rewrite Ht, fold_tag_world_tracks. apply in_or_app. right.
    apply in_map. now apply (tagged_In E _ f).
  - intros Hin. simpl. unfold fav_string. now apply py_in_join_member.
  - intros Hne Hc Hlen Hfav. simpl in Hfav. unfold fav_string in Hfav.
    now apply py_in_join_only_member.
Qed.

Lemma is_favorite_by_substring_witness :
  In (Track.mk "/music/a.mp3" 10 "1a2b3c" "albA" [Demo.X] [Demo.X]
        "albA.webp" true)
     (TrackStore_tracks
        (world (final (tag_untagged (Demo.env true Demo.quiet)
                         ["/music/a.mp3"; "/music/b.mp3"] "K1" Demo.alone
                         (mkSt (mkWorld "K1" [] [] [] []
                                  [mk_fav 1 "1a2b3c" "track"] ["/music"])
                               []))))).
Proof.
  refine (proj1 (is_favorite_by_substring (Demo.env true Demo.quiet) "K1"
                   Demo.alone ["/music/a.mp3"; "/music/b.mp3"]
                   (mkWorld "K1" [] [] [] [] [mk_fav 1 "1a2b3c" "track"]
                      ["/music"])
                   [] "/music/a.mp3" Demo.tags_a _ _)).
  - simpl. now left.
  - reflexivity.
Defined.

(** C2 as the spec states it fails: the only favourite hash is [1a2b3c];
    the track of [/home/u/x.mp3] has trackhash [a2b], which is not a
    favourite hash but occurs inside one, and it is marked as favourite. *)
Lemma substring_hash_marked_favorite :
  map (fun t => (Track.filepath t, Track.trackhash t, Track.is_favorite t))
    (TrackStore_tracks
       (world (final (tag_untagged (Demo.env true Demo.quiet)
                        ["/home/u/x.mp3"] "K1" Demo.alone
                        (mkSt (mkWorld "K1" [] [] [] []
                                 [mk_fav 1 "1a2b3c" "track"] ["/home/u"])
                              [])))))
  = [("/home/u/x.mp3", "a2b", true)]
  /\ ~ In "a2b" (map fav_hash [mk_fav 1 "1a2b3c" "track"]).
Proof.
  split; [vm_compute; reflexivity|].
  simpl. intros [H|[]]. discriminate H.
Qed.

(** ** De-duplication of albums and artists (lines 139-148) *)

Lemma add_album_of_spec t l :
  NoDup (map Album.albumhash l) ->
  NoDup (map Album.albumhash (add_album_of t l))
  /\ In (Track.albumhash t) (map Album.albumhash (add_album_of t l))
  /\ exists added, add_album_of t l = l ++ added.
Proof.
  intros Hnd. unfold add_album_of.
  destruct (mem (Track.albumhash t) (map Album.albumhash l)) eqn:Hm.
  - apply mem_In in Hm. repeat split; try assumption.
    exists []. now rewrite app_nil_r.
  - apply mem_false in Hm. rewrite map_app. simpl. repeat split.
    + apply NoDup_app; [exact Hnd|repeat constructor; intros []|].
      intros h Hh [<-|[]]. contradiction.
    + apply in_or_app. right. now left.
    + eexists. reflexivity.
Qed.

Lemma add_missing_spec E l a :
  ArtistMinimal.artisthash a = create_hash E (ArtistMinimal.name a) ->
  NoDup (map Artist.artisthash l) ->
  NoDup (map Artist.artisthash (add_missing E l a))
  /\ In (ArtistMinimal.artisthash a) (map Artist.artisthash (add_missing E l a))
  /\ exists added, add_missing E l a = l ++ added.
Proof.
  intros Hwf Hnd. unfold add_missing.
  destruct (mem (ArtistMinimal.artisthash a) (map Artist.artisthash l)) eqn:Hm.
  - apply mem_In in Hm. repeat split; try assumption.
    exists []. now rewrite app_nil_r.
  - apply mem_false in Hm. rewrite map_app. simpl. rewrite <- Hwf.
    repeat split.
    + apply NoDup_app; [exact Hnd|repeat constructor; intros []|].
      intros h Hh [<-|[]]. contradiction.
    + apply in_or_app. right. now left.
    + eexists. reflexivity.
Qed.

Lemma fold_add_missing_spec E : forall xs l,
  (forall a, In a xs ->
     ArtistMinimal.artisthash a = create_hash E (ArtistMinimal.name a)) ->
  NoDup (map Artist.artisthash l) ->
  NoDup (map Artist.artisthash (fold_left (add_missing E) xs l))
  /\ (forall a, In a xs ->
        In (ArtistMinimal.artisthash a)
           (map Artist.artisthash (fold_left (add_missing E) xs l)))
  /\ exists added, fold_left (add_missing E) xs l = l ++ added.
Proof.
  induction xs as [|x xs IH]; intros l Hwf Hnd; simpl.
  - repeat split; [exact Hnd|intros a []|]. exists []. now rewrite app_nil_r.
  - destruct (add_missing_spec E l x (Hwf x (or_introl eq_refl)) Hnd)
      as (Hnd1 & Hin1 & (ad1 & He1)).
    destruct (IH (add_missing E l x) (fun a Ha => Hwf a (or_intror Ha)) Hnd1)
      as (Hnd2 & Hin2 & (ad2 & He2)).
    repeat split.
    + exact Hnd2.
    + intros a [<-|Ha]; [|now apply Hin2].
      rewrite He2, map_app. apply in_or_app. now left.
    + exists (ad1 ++ ad2). rewrite He2, He1. now rewrite app_assoc.
Qed.

(** What one ingested file leaves in the album and artist stores. *)
Lemma tag_world_dedup E fav w f :
  (forall g a, get_tags E f = Some g ->
     In a (Tags.artist g ++ Tags.albumartist g) ->
     ArtistMinimal.artisthash a = create_hash E (ArtistMinimal.name a)) ->
  NoDup (map Album.albumhash (AlbumStore_albums w)) ->
  NoDup (map Artist.artisthash (ArtistStore_artists w)) ->
  NoDup (map Album.albumhash (AlbumStore_albums (tag_world E fav w f)))
  /\ NoDup (map Artist.artisthash (ArtistStore_artists (tag_world E fav w f)))
  /\ (exists added, AlbumStore_albums (tag_world E fav w f)
                    = AlbumStore_albums w ++ added)
  /\ (exists added, ArtistStore_artists (tag_world E fav w f)
                    = ArtistStore_artists w ++ added)
  /\ (forall g, get_tags E f = Some g ->
        In (Tags.albumhash g)
           (map Album.albumhash (AlbumStore_albums (tag_world E fav w f)))
        /\ forall a, In a (Tags.artist g ++ Tags.albumartist g) ->
             In (ArtistMinimal.artisthash a)
                (map Artist.artisthash
                   (ArtistStore_artists (tag_world E fav w f)))).
Proof.
  intros Hwf Hal Har. unfold tag_world.
  destruct (get_tags E f) as [g|] eqn:Hg.
  2:{ repeat split; try assumption;
        try (exists []; now rewrite app_nil_r). all: discriminate. }
  cbn [AlbumStore_albums ArtistStore_artists].
  destruct (add_album_of_spec (tagged_track fav g) (AlbumStore_albums w) Hal)
    as (Hal1 & Hin1 & Hex1).
  destruct (fold_add_missing_spec E (Track.artist (tagged_track fav g))
              (ArtistStore_artists w)) as (Har1 & Hin2 & (ad2 & He2)).
  { intros a Ha. apply (Hwf g a eq_refl). apply in_or_app. now left. }
  { exact Har. }
  destruct (fold_add_missing_spec E (Track.albumartist (tagged_track fav g))
              (fold_left (add_missing E) (Track.artist (tagged_track fav g))
                 (ArtistStore_artists w))) as (Har2 & Hin3 & (ad3 & He3)).
  { intros a Ha. apply (Hwf g a eq_refl). apply in_or_app. now right. }
  { exact Har1. }
  split; [exact Hal1|]. split; [exact Har2|]. split; [exact Hex1|]. split.
  - exists (ad2 ++ ad3). rewrite He3, He2. now rewrite app_assoc.
  - intros g' Hg'. injection Hg' as <-. split; [exact Hin1|].
    intros a Ha. apply in_app_or in Ha. destruct Ha as [Ha|Ha].
    + rewrite He3, map_app. apply in_or_app. left. now apply Hin2.
    + now apply Hin3.
Qed.

Lemma fold_tag_world_dedup E fav : forall fs w,
  (forall f g a, In f fs -> get_tags E f = Some g ->
     In a (Tags.artist g ++ Tags.albumartist g) ->
     ArtistMinimal.artisthash a = create_hash E (ArtistMinimal.name a)) ->
  NoDup (map Album.albumhash (AlbumStore_albums w)) ->
  NoDup (map Artist.artisthash (ArtistStore_artists w)) ->
  NoDup (map Album.albumhash
           (AlbumStore_albums (fold_left (tag_world E fav) fs w)))
  /\ NoDup (map Artist.artisthash
              (ArtistStore_artists (fold_left (tag_world E fav) fs w)))
  /\ (exists added, AlbumStore_albums (fold_left (tag_world E fav) fs w)
                    = AlbumStore_albums w ++ added)
  /\ (exists added, ArtistStore_artists (fold_left (tag_world E fav) fs w)
                    = ArtistStore_artists w ++ added)
  /\ (forall f g, In f fs -> get_tags E f = Some g ->
        In (Tags.albumhash g)
           (map Album.albumhash
              (AlbumStore_albums (fold_left (tag_world E fav) fs w)))
        /\ forall a, In a (Tags.artist g ++ Tags.albumartist g) ->
             In (ArtistMinimal.artisthash a)
                (map Artist.artisthash
                   (ArtistStore_artists (fold_left (tag_world E fav) fs w)))).
Proof.
  induction fs as [|x fs IH]; intros w Hwf Hal Har; simpl.
  - repeat split; try assumption; try (exists []; now rewrite app_nil_r).
    all: contradiction.
  - destruct (tag_world_dedup E fav w x
                (fun g a => Hwf x g a (or_introl eq_refl)) Hal Har)
      as (Hal1 & Har1 & (aa1 & Ha1) & (ab1 & Hb1) & Hin1).
    destruct (IH (tag_world E fav w x)
                (fun f g a Hf => Hwf f g a (or_intror Hf)) Hal1 Har1)
      as (Hal2 & Har2 & (aa2 & Ha2) & (ab2 & Hb2) & Hin2).
    split; [exact Hal2|]. split; [exact Har2|]. split; [|split].
    + exists (aa1 ++ aa2). rewrite Ha2, Ha1. now rewrite app_assoc.
    + exists (ab1 ++ ab2). rewrite Hb2, Hb1. now rewrite app_assoc.
    + intros f g [<-|Hf] Hg; [|exact (Hin2 f g Hf Hg)].
      destruct (Hin1 g Hg) as (Hx & Hy). split.
      * rewrite Ha2, map_app. apply in_or_app. now left.
      * intros a Ha. rewrite Hb2, map_app. apply in_or_app. left.
        now apply Hy.
Qed.

Lemma uncancelled_In key files sched k f :
  In f (uncancelled key sched k files) -> In f files.
Proof.
  intros H. destruct (uncancelled_prefix key files sched k) as (rest & Hr).
  rewrite Hr. apply in_or_app. now left.
Qed.

(** C3: starting from stores in which no two entries share a hash, tag
    ingestion (run to the end or cancelled) leaves stores in which no two
    entries share a hash; it only appends to them; and for every file it
    ingested, the Album store holds exactly one entry with the track's
    albumhash and the Artist store exactly one entry with the artisthash of
    each of its artists and album artists.  The artist identities of a
    track carry the hash that [Artist(name)] derives from their name. *)
Theorem dedup_invariant (E : Env) (key : string) (sched : schedule)
  (files : list string) (w : World) (ev : list event) :
  NoDup (map Album.albumhash (AlbumStore_albums w)) ->
  NoDup (map Artist.artisthash (ArtistStore_artists w)) ->
  (forall f g a, In f files -> get_tags E f = Some g ->
     In a (Tags.artist g ++ Tags.albumartist g) ->
     ArtistMinimal.artisthash a = create_hash E (ArtistMinimal.name a)) ->
  NoDup (map Album.albumhash
           (AlbumStore_albums
              (world (final (tag_untagged E files key sched (mkSt w ev))))))
  /\ NoDup (map Artist.artisthash
              (ArtistStore_artists
                 (world (final (tag_untagged E files key sched (mkSt w ev))))))
  /\ (exists added,
        AlbumStore_albums
          (world (final (tag_untagged E files key sched (mkSt w ev))))
        = AlbumStore_albums w ++ added)
  /\ (exists added,
        ArtistStore_artists
          (world (final (tag_untagged E files key sched (mkSt w ev))))
        = ArtistStore_artists w ++ added)
  /\ (forall f g,
        In f (uncancelled key sched (POPULATE_KEY w) files) ->
        get_tags E f = Some g ->
        count_occ string_dec
          (map Album.albumhash
             (AlbumStore_albums
                (world (final (tag_untagged E files key sched (mkSt w ev))))))
          (Tags.albumhash g) = 1
        /\ forall a, In a (Tags.artist g ++ Tags.albumartist g) ->
             count_occ string_dec
               (map Artist.artisthash
                  (ArtistStore_artists
                     (world (final (tag_untagged E files key sched
                                      (mkSt w ev))))))
               (ArtistMinimal.artisthash a) = 1).
Proof.
  intros Hal Har Hwf.
  destruct (tag_untagged_final E files key sched w ev) as (_ & Ha & Hb).
  rewrite Ha, Hb.
  destruct (fold_tag_world_dedup E (fav_string w)
              (uncancelled key sched (POPULATE_KEY w) files) w)
    as (Hal' & Har' & Hxa & Hxb & Hin); try assumption.
  { intros f g a Hf. apply Hwf. now apply uncancelled_In in Hf. }
  split; [exact Hal'|]. split; [exact Har'|]. split; [exact Hxa|].
  split; [exact Hxb|].
  intros f g Hf Hg. destruct (Hin f g Hf Hg) as (Hx & Hy). split.
  - now apply (proj1 (NoDup_count_occ' string_dec _) Hal').
  - intros a Ha'. apply (proj1 (NoDup_count_occ' string_dec _) Har').
    now apply Hy.
Qed.

Lemma dedup_invariant_witness :
  NoDup (map Album.albumhash
           (AlbumStore_albums
              (world (final (tag_untagged (Demo.env true Demo.quiet)
                               ["/music/a.mp3"; "/music/b.mp3"; "/home/u/x.mp3"]
                               "K1" Demo.alone
                               (mkSt (mkWorld "K1" []
                                        [Album.mk "albA" "albA.webp"] []
                                        [] [] ["/music"]) [])))))).
Proof.
  refine (proj1 (dedup_invariant (Demo.env true Demo.quiet) "K1" Demo.alone
                   ["/music/a.mp3"; "/music/b.mp3"; "/home/u/x.mp3"]
                   (mkWorld "K1" [] [Album.mk "albA" "albA.webp"] [] [] []
                      ["/music"]) [] _ _ _)).
  - simpl. repeat constructor. intros [].
  - simpl. constructor.
  - intros f g a [<-|[<-|[<-|[]]]] Hg Ha; vm_compute in Hg;
      injection Hg as <-; simpl in Ha; destruct Ha as [<-|[<-|[]]];
      reflexivity.
Defined.

(** ** Stages that keep the catalog *)

Lemma keeps_ret A (a : A) : keeps (ret a).
Proof. intros s. now split. Qed.

Lemma keeps_emit e : keeps (emit e).
Proof. intros s. now split. Qed.

Lemma keeps_get A (f : World -> A) : keeps (get f).
Proof. intros s. now split. Qed.

Lemma keeps_bind A B (m : M A) (k : A -> M B) :
  keeps m -> (forall a, keeps (k a)) -> keeps (bind m k).
Proof.
  intros Hm Hk s. unfold bind. specialize (Hm s).
  destruct (m s) as [a s'|e s']; simpl in Hm; [|exact Hm].
  destruct (Hk a s') as (H1 & H2). destruct Hm as (H3 & H4).
  split; congruence.
Qed.

Lemma keeps_call st f : keeps_data f -> keeps (call st f).
Proof.
  intros Hf s. rewrite call_eq. specialize (Hf (world s)).
  destruct (fst (f (world s))); exact Hf.
Qed.

Lemma keeps_for_each A (xs : list A) (body : A -> M unit) :
  (forall x, keeps (body x)) -> keeps (for_each xs body).
Proof.
  intros Hb. induction xs as [|x xs IH]; simpl.
  - apply keeps_ret.
  - apply keeps_bind; [apply Hb|intros _; exact IH].
Qed.

Lemma keeps_thumbnails : keeps ProcessTrackThumbnails.
Proof.
  unfold ProcessTrackThumbnails.
  apply keeps_bind; [apply keeps_emit|intros _].
  apply keeps_bind; [apply keeps_get|intros albums].
  apply keeps_for_each. intros album. unfold get_image.
  apply keeps_bind; [apply keeps_get|intros tracks].
  destruct (find _ tracks); [apply keeps_emit|apply keeps_ret].
Qed.

Lemma keeps_extract E :
  keeps_data (ProcessAlbumColors E) -> keeps_data (ProcessArtistColors E) ->
  keeps (extract E).
Proof.
  intros Ha Hb. unfold extract.
  apply keeps_bind; [apply keeps_thumbnails|intros _].
  apply keeps_bind; [now apply keeps_call|intros _].
  now apply keeps_call.
Qed.

Lemma keeps_enrich E :
  keeps_data (ProcessArtistColors E) -> keeps_data (CheckArtistImages E) ->
  keeps (enrich E).
Proof.
  intros Ha Hb. unfold enrich.
  apply keeps_bind; [apply keeps_get|intros reachable].
  apply keeps_bind; [apply keeps_emit|intros _].
  apply keeps_bind.
  - destruct reachable.
    + apply keeps_bind; [|intros _; apply keeps_ret].
      intros s. unfold try_except.
      pose proof (keeps_call ArtistImages _ Hb s) as Hc.
      destruct (call ArtistImages (CheckArtistImages E) s) as [[] s'|e s'];
        simpl in *; [exact Hc|].
      destruct (is_network_failure e); simpl; exact Hc.
    + apply keeps_bind; [apply keeps_emit|intros _; apply keeps_ret].
  - intros [|]; [now apply keeps_call|apply keeps_ret].
Qed.

(** ** Two runs in a row *)

Lemma filter_untagged_In tracks files f :
  In f (filter_untagged tracks files)
  <-> In f files /\ ~ In f (map Track.filepath tracks).
Proof.
  unfold filter_untagged. rewrite nodup_In, filter_In, negb_true_iff, mem_false.
  reflexivity.
Qed.

Lemma filter_all A (p : A -> bool) l :
  (forall x, In x l -> p x = true) -> filter p l = l.
Proof.
  induction l as [|x l IH]; intros H; simpl; [reflexivity|].
  rewrite (H x (or_introl eq_refl)). f_equal. apply IH.
  intros y Hy. apply H. now right.
Qed.

Lemma detect_changes_eq E key w0 ev0 :
  detect_changes E key (mkSt w0 ev0)
  = let w1 := snd (validate_tracks E (set_POPULATE_KEY key w0)) in
    let ev1 := ev0 ++ [Call ValidateTracks] in
    let tracks := map Track_of_tags (db_tracks w1) in
    match fst (validate_tracks E (set_POPULATE_KEY key w0)) with
    | Raised e => Raise e (mkSt w1 ev1)
    | Returned =>
        if Nat.eqb (length (db_root_dirs w1)) 0
        then Ok None
               (mkSt w1
                  (ev1 ++ [Log WARNING
                     "The root directory is not configured. Open the app in your webbrowser to configure."
                     []]))
        else
          match modified_paths E tracks with
          | inl e => Raise e (mkSt w1 ev1)
          | inr modified =>
              Ok (Some (filter_untagged tracks
                          (scan_files E (resolve_dirs E (db_root_dirs w1)))))
                 (mkSt
                    (mkWorld (POPULATE_KEY w1)
                       (filter (fun t => negb (mem (Track.filepath t) modified))
                          (TrackStore_tracks w1))
                       (AlbumStore_albums w1) (ArtistStore_artists w1)
                       (filter (fun g => negb (mem (Tags.filepath g) modified))
                          (db_tracks w1))
                       (db_favorites w1) (db_root_dirs w1))
                    ev1)
          end
    end.
Proof.
  unfold detect_changes. unfold bind at 1. unfold modify at 1.
  cbn [world events]. unfold bind at 1. rewrite call_eq. cbn [world events].
  destruct (validate_tracks E (set_POPULATE_KEY key w0)) as [[|e] w1];
    cbn [fst snd]; [|reflexivity].
  unfold bind at 1. unfold get_all_tracks at 1, get at 1. cbn [world events].
  unfold bind at 1. unfold get_root_dirs at 1, get at 1. cbn [world events].
  destruct (Nat.eqb (length (db_root_dirs w1)) 0); [reflexivity|].
  unfold bind at 1. unfold remove_modified.
  destruct (modified_paths E (map Track_of_tags (db_tracks w1)));
    reflexivity.
Qed.

Lemma fold_tag_world_none E fav fs : forall w,
  (forall f, In f fs -> get_tags E f = None) ->
  fold_left (tag_world E fav) fs w = w.
Proof.
  induction fs as [|f fs IH]; intros w Hn; simpl; [reflexivity|].
  unfold tag_world at 2. rewrite (Hn f (or_introl eq_refl)).
  apply IH. intros g Hg. apply Hn. now right.
Qed.

Lemma tagged_none E fs :
  (forall f, In f fs -> get_tags E f = None) -> tagged E fs = [].
Proof.
  induction fs as [|f fs IH]; intros Hn; [reflexivity|].
  unfold tagged. simpl. rewrite (Hn f (or_introl eq_refl)). simpl.
  apply IH. intros g Hg. apply Hn. now right.
Qed.

(** Files the tag extractor cannot read leave the catalog as it was. *)
Lemma keeps_tag_untagged_none E fs key sched :
  (forall f, In f fs -> get_tags E f = None) ->
  keeps (tag_untagged E fs key sched).
Proof.
  intros Hn [w ev]. rewrite tag_untagged_eq. cbn zeta.
  assert (Hd : forall f, In f (uncancelled key sched (POPULATE_KEY w) fs) ->
                 get_tags E f = None).
  { intros f Hf. apply Hn. now apply uncancelled_In in Hf. }
  rewrite (fold_tag_world_none E _ _ w Hd), fold_tag_acc, (tagged_none E _ Hd).
  cbn [fst snd app length Nat.ltb Nat.leb].
  destruct (Nat.eqb _ _); simpl; now split.
Qed.

Lemma uncancelled_full key files sched k :
  length (uncancelled key sched k files) = length files ->
  uncancelled key sched k files = files.
Proof.
  intros Hl. destruct (uncancelled_prefix key files sched k) as (rest & Hr).
  rewrite Hr in Hl at 2. rewrite length_app in Hl.
  destruct rest; [|simpl in Hl; lia]. rewrite app_nil_r in Hr. now symmetry.
Qed.

(** When [tag_untagged] returns, the persistent table has gained the tag
    dicts of all the files given that could be read. *)
Lemma tag_untagged_Ok_db E fs key sched s s' :
  tag_untagged E fs key sched s = Ok tt s' ->
  db_tracks (world s') = db_tracks (world s) ++ tagged E fs
  /\ db_root_dirs (world s') = db_root_dirs (world s).
Proof.
  destruct s as [w ev]. rewrite tag_untagged_eq. cbn zeta.
  destruct (Nat.eqb_spec (length (uncancelled key sched (POPULATE_KEY w) fs))
              (length fs)) as [Hl|Hl]; [|discriminate].
  rewrite (uncancelled_full key fs sched _ Hl), fold_tag_acc.
  cbn [fst snd app].
  destruct (fold_tag_world_db E (fav_string w) fs w) as (Hdb & _ & Hrd).
  destruct (Nat.ltb 0 (length (tagged E fs))) eqn:Hlt; intros H;
    injection H as <-; cbn [world db_tracks db_root_dirs set_POPULATE_KEY
                              set_db_tracks]; rewrite ?Hdb, ?Hrd.
  - now split.
  - apply Nat.ltb_ge in Hlt. destruct (tagged E fs); [|simpl in Hlt; lia].
    now rewrite app_nil_r.
Qed.

Lemma modified_paths_fresh E tracks :
  (forall t, In t tracks ->
     getmtime E (Track.filepath t) = Some (Track.last_mod t)) ->
  modified_paths E tracks = inr [].
Proof.
  induction tracks as [|t ts IH]; intros H; simpl; [reflexivity|].
  rewrite (H t (or_introl eq_refl)), IH, Z.eqb_refl; [reflexivity|].
  intros u Hu. apply H. now right.
Qed.

Lemma keeps_later_stages E :
  keeps_data (ProcessAlbumColors E) -> keeps_data (ProcessArtistColors E) ->
  keeps_data (CheckArtistImages E) ->
  keeps (extract E ;; enrich E).
Proof.
  intros Ha Hb Hc. apply keeps_bind; [now apply keeps_extract|intros _].
  now apply keeps_enrich.
Qed.

Lemma catalog_eq w w' :
  catalog w = catalog w' ->
  TrackStore_tracks w = TrackStore_tracks w'
  /\ AlbumStore_albums w = AlbumStore_albums w'
  /\ ArtistStore_artists w = ArtistStore_artists w'
  /\ db_tracks w = db_tracks w'.
Proof. unfold catalog. intros H. injection H as H1 H2 H3 H4. auto. Qed.

Lemma modified_paths_inr_readable E tracks l :
  modified_paths E tracks = inr l ->
  forall t, In t tracks -> getmtime E (Track.filepath t) <> None.
Proof.
  intros Hl t Ht Hn.
  destruct (modified_paths_unreadable E tracks t Ht Hn) as (p & Hp).
  congruence.
Qed.

Lemma filter_twice A (p q : A -> bool) l :
  filter q (filter p l) = filter (fun x => p x && q x) l.
Proof.
  induction l as [|x l IH]; simpl; [reflexivity|].
  destruct (p x); simpl; [|exact IH].
  destruct (q x); simpl; now rewrite IH.
Qed.

Lemma filter_everything A (l : list A) : l = filter (fun _ => true) l.
Proof. symmetry. apply filter_all. reflexivity. Qed.

(** After a run that returned and met no stale track, the persistent table
    holds what validation left of it plus the tag dicts of the untagged
    files that could be read. *)
Lemma first_run_persists E key sched w0 ev0 s1 :
  prunes_dead E (validate_tracks E) ->
  keeps_data (ProcessAlbumColors E) -> keeps_data (ProcessArtistColors E) ->
  keeps_data (CheckArtistImages E) ->
  (forall g, In g (db_tracks w0) ->
     getmtime E (Tags.filepath g) <> None ->
     getmtime E (Tags.filepath g) = Some (Tags.last_mod g)) ->
  Populate E key sched (mkSt w0 ev0) = Ok tt s1 ->
  db_root_dirs (world s1) = db_root_dirs w0
  /\ (db_root_dirs w0 <> [] ->
      db_tracks (world s1)
      = db_tracks (snd (validate_tracks E (set_POPULATE_KEY key w0)))
        ++ tagged E
             (filter_untagged
                (map Track_of_tags
                   (db_tracks
                      (snd (validate_tracks E (set_POPULATE_KEY key w0)))))
                (scan_files E (resolve_dirs E (db_root_dirs w0))))).
Proof.
  intros Hv Ha Hb Hc Hfresh Hrun.
  destruct (Hv (set_POPULATE_KEY key w0))
    as (_ & (q & Hq) & _ & _ & _ & Hroots).
  cbn [set_POPULATE_KEY db_tracks db_root_dirs] in Hq, Hroots.
  unfold Populate in Hrun. unfold bind at 1 in Hrun.
  rewrite detect_changes_eq in Hrun. cbn zeta in Hrun.
  destruct (fst (validate_tracks E (set_POPULATE_KEY key w0)));
    [|discriminate Hrun].
  rewrite Hroots in Hrun.
  set (w1 := snd (validate_tracks E (set_POPULATE_KEY key w0))) in *.
  destruct (Nat.eqb_spec (length (db_root_dirs w0)) 0) as [Hz|Hz].
  - injection Hrun as <-. cbn [world]. split; [exact Hroots|].
    intros Hne. destruct (db_root_dirs w0); [now elim Hne|discriminate Hz].
  - destruct (modified_paths E (map Track_of_tags (db_tracks w1)))
      as [e|l] eqn:Hmp; [discriminate Hrun|].
    assert (Hl : l = []).
    { pose proof (modified_paths_inr_readable E _ l Hmp) as Hread.
      rewrite modified_paths_fresh in Hmp; [now injection Hmp|].
      intros t Ht. pose proof (Hread t Ht) as Hr.
      apply in_map_iff in Ht. destruct Ht as (g & <- & Hg).
      apply Hfresh; [|exact Hr].
      rewrite Hq in Hg. apply filter_In in Hg. tauto. }
    subst l.
    rewrite (filter_all _ (fun g => negb (mem (Tags.filepath g) []))) in Hrun
      by (intros; reflexivity).
    set (untagged := filter_untagged (map Track_of_tags (db_tracks w1))
                       (scan_files E (resolve_dirs E (db_root_dirs w0)))) in *.
    unfold bind at 1 in Hrun.
    pose proof (keeps_later_stages E Ha Hb Hc) as Hk.
    destruct (Nat.eqb_spec (length untagged) 0) as [Hu|Hu]; cbn [negb] in Hrun.
    + unfold ret at 1 in Hrun.
      match type of Hrun with _ ?s = _ => specialize (Hk s) end.
      rewrite Hrun in Hk.
      cbn [final world] in Hk. destruct Hk as (Hk1 & Hk2).
      apply catalog_eq in Hk1. destruct Hk1 as (_ & _ & _ & Hk1).
      cbn [db_tracks db_root_dirs] in Hk1, Hk2. split; [exact Hk2|].
      intros _. rewrite Hk1. destruct untagged; [|discriminate Hu].
      now rewrite app_nil_r.
    + destruct (tag_untagged E untagged key sched _) as [[] sB|e sB] eqn:Ht;
        [|discriminate Hrun].
      apply tag_untagged_Ok_db in Ht. destruct Ht as (Ht1 & Ht2).
      cbn [world db_tracks db_root_dirs] in Ht1, Ht2.
      specialize (Hk sB). rewrite Hrun in Hk.
      cbn [final] in Hk. destruct Hk as (Hk1 & Hk2).
      apply catalog_eq in Hk1. destruct Hk1 as (_ & _ & _ & Hk1).
      split; [congruence|]. intros _. congruence.
Qed.

(** A run in which the tag extractor can read none of the untagged files
    adds no entry to any store: the Track store and the persistent table
    end as selections of what they were, albums and artists as they were. *)
Lemma run_adds_nothing E key sched w ev :
  prunes_dead E (validate_tracks E) ->
  keeps_data (ProcessAlbumColors E) -> keeps_data (ProcessArtistColors E) ->
  keeps_data (CheckArtistImages E) ->
  (forall f,
     In f (filter_untagged
             (map Track_of_tags
                (db_tracks (snd (validate_tracks E (set_POPULATE_KEY key w)))))
             (scan_files E (resolve_dirs E (db_root_dirs w)))) ->
     get_tags E f = None) ->
  (exists p,
     TrackStore_tracks (world (final (Populate E key sched (mkSt w ev))))
     = filter p (TrackStore_tracks w))
  /\ AlbumStore_albums (world (final (Populate E key sched (mkSt w ev))))
     = AlbumStore_albums w
  /\ ArtistStore_artists (world (final (Populate E key sched (mkSt w ev))))
     = ArtistStore_artists w
  /\ (exists q,
        db_tracks (world (final (Populate E key sched (mkSt w ev))))
        = filter q (db_tracks w)).
Proof.
  intros Hv Ha Hb Hc Hnone.
  destruct (Hv (set_POPULATE_KEY key w))
    as ((p & Ht) & (q & Hdb) & _ & Hal & Har & Hroots).
  cbn [set_POPULATE_KEY TrackStore_tracks AlbumStore_albums
         ArtistStore_artists db_tracks db_root_dirs] in Ht, Hal, Har, Hdb, Hroots.
  remember (Populate E key sched (mkSt w ev)) as r eqn:Hr.
  unfold Populate in Hr. unfold bind at 1 in Hr.
  rewrite detect_changes_eq in Hr. cbn zeta in Hr.
  rewrite Hroots in Hr.
  set (w1 := snd (validate_tracks E (set_POPULATE_KEY key w))) in *.
  assert (Hsame : (exists p', TrackStore_tracks w1
                              = filter p' (TrackStore_tracks w))
                  /\ AlbumStore_albums w1 = AlbumStore_albums w
                  /\ ArtistStore_artists w1 = ArtistStore_artists w
                  /\ (exists q', db_tracks w1 = filter q' (db_tracks w))).
  { split; [now exists p|]. split; [exact Hal|]. split; [exact Har|].
    now exists q. }
  destruct (fst (validate_tracks E (set_POPULATE_KEY key w)));
    [|subst r; exact Hsame].
  destruct (Nat.eqb (length (db_root_dirs w)) 0); [subst r; exact Hsame|].
  destruct (modified_paths E (map Track_of_tags (db_tracks w1)))
    as [e|modified]; [subst r; exact Hsame|].
  set (untagged := filter_untagged (map Track_of_tags (db_tracks w1))
                     (scan_files E (resolve_dirs E (db_root_dirs w)))) in *.
  assert (Hk : keeps
            ((if negb (Nat.eqb (length untagged) 0)
              then tag_untagged E untagged key sched else ret tt) ;;
             extract E ;; enrich E)).
  { apply keeps_bind.
    - destruct (negb _); [now apply keeps_tag_untagged_none|apply keeps_ret].
    - intros _. now apply keeps_later_stages. }
  match type of Hr with _ = _ ?s => specialize (Hk s) end.
  rewrite <- Hr in Hk.
  destruct Hk as (Hk & _). apply catalog_eq in Hk.
  destruct Hk as (Hk1 & Hk2 & Hk3 & Hk4).
  cbn [world TrackStore_tracks AlbumStore_albums ArtistStore_artists db_tracks]
    in Hk1, Hk2, Hk3, Hk4.
  rewrite Hk1, Hk2, Hk3, Hk4, Ht, Hdb, Hal, Har.
  split; [eexists; apply filter_twice|]. split; [reflexivity|].
  split; [reflexivity|]. eexists; apply filter_twice.
Qed.

(** C8, as the code has it: a run that follows, with no change on disk, a
    run that returned and met no stale track adds no Track, Album or Artist
    entry.  Every file of its untagged set is one the tag extractor cannot
    read, since every file that can be read has a row in the persistent
    table, and such files add nothing; so the Track store and the
    persistent table end as what the first run left with at most some
    entries taken out, and the Album and Artist stores end as they were.
    The tag extractor reads only files whose mtime can be read and records
    the path it is given as the track's filepath; [validate_tracks] at most
    removes tracks, and none whose file can be read; the colour and image
    stages leave the catalog and the configured roots alone. *)
Theorem second_run_adds_nothing (E : Env) (k1 k2 : string)
  (sched1 sched2 : schedule) (s0 s1 : St) :
  (forall f g, get_tags E f = Some g -> Tags.filepath g = f) ->
  (forall f g, get_tags E f = Some g -> getmtime E f <> None) ->
  prunes_dead E (validate_tracks E) ->
  keeps_data (ProcessAlbumColors E) ->
  keeps_data (ProcessArtistColors E) ->
  keeps_data (CheckArtistImages E) ->
  (forall g, In g (db_tracks (world s0)) ->
     getmtime E (Tags.filepath g) <> None ->
     getmtime E (Tags.filepath g) = Some (Tags.last_mod g)) ->
  Populate E k1 sched1 s0 = Ok tt s1 ->
  (forall f,
     In f (filter_untagged
             (map Track_of_tags
                (db_tracks
                   (snd (validate_tracks E
                           (set_POPULATE_KEY k2 (world s1))))))
             (scan_files E (resolve_dirs E (db_root_dirs (world s1))))) ->
     get_tags E f = None)
  /\ (exists p,
        TrackStore_tracks (world (final (Populate E k2 sched2 s1)))
        = filter p (TrackStore_tracks (world s1)))
  /\ AlbumStore_albums (world (final (Populate E k2 sched2 s1)))
     = AlbumStore_albums (world s1)
  /\ ArtistStore_artists (world (final (Populate E k2 sched2 s1)))
     = ArtistStore_artists (world s1)
  /\ (exists q,
        db_tracks (world (final (Populate E k2 sched2 s1)))
        = filter q (db_tracks (world s1))).
Proof.
  intros Htags Hstat Hv Ha Hb Hc Hfresh Hrun. destruct s0 as [w0 ev0].
  destruct (first_run_persists E k1 sched1 w0 ev0 s1 Hv Ha Hb Hc Hfresh Hrun)
    as (Hroots & Hdb).
  destruct (Hv (set_POPULATE_KEY k2 (world s1)))
    as (_ & _ & Hkeep & _ & _ & _).
  cbn [set_POPULATE_KEY db_tracks] in Hkeep.
  assert (Hnone : forall f,
     In f (filter_untagged
             (map Track_of_tags
                (db_tracks
                   (snd (validate_tracks E
                           (set_POPULATE_KEY k2 (world s1))))))
             (scan_files E (resolve_dirs E (db_root_dirs (world s1))))) ->
     get_tags E f = None).
  { intros f Hf. rewrite Hroots in Hf.
    destruct (db_root_dirs w0) as [|d ds] eqn:Hd.
    - apply filter_untagged_In in Hf. destruct Hf as ([] & _).
    - specialize (Hdb ltac:(discriminate)).
      apply filter_untagged_In in Hf. destruct Hf as (Hfiles & Hnot).
      destruct (get_tags E f) as [g|] eqn:Hg; [|reflexivity].
      exfalso. apply Hnot. rewrite map_map.
      pose proof (Hstat f g Hg) as Hread.
      destruct (in_dec string_dec f
                  (map Tags.filepath
                     (db_tracks
                        (snd (validate_tracks E (set_POPULATE_KEY k1 w0))))))
        as [Hin|Hout].
      + apply in_map_iff in Hin. destruct Hin as (r & Hr & Hin).
        apply in_map_iff. exists r. split; [exact Hr|].
        apply Hkeep; [|now rewrite Hr].
        rewrite Hdb. apply in_or_app. now left.
      + apply in_map_iff. exists g. split; [cbn; now apply Htags|].
        apply Hkeep; [|now rewrite (Htags f g Hg)].
        rewrite Hdb. apply in_or_app. right.
        apply (tagged_In E _ f); [|exact Hg].
        apply filter_untagged_In. split; [exact Hfiles|].
        now rewrite map_map. }
  split; [exact Hnone|].
  destruct s1 as [w1 ev1].
  exact (run_adds_nothing E k2 sched2 w1 ev1 Hv Ha Hb Hc Hnone).
Qed.

Lemma second_run_adds_nothing_witness :
  exists p,
    TrackStore_tracks
      (world (final (Populate (Demo.env true Demo.quiet) "K2" Demo.alone
                       (final (Populate (Demo.env true Demo.quiet) "K1"
                                 Demo.alone
                                 (Demo.start (Demo.empty_world ["/music"])))))))
    = filter p
        (TrackStore_tracks
           (world (final (Populate (Demo.env true Demo.quiet) "K1" Demo.alone
                            (Demo.start (Demo.empty_world ["/music"])))))).
Proof.
  assert (H := second_run_adds_nothing (Demo.env true Demo.quiet) "K1" "K2"
                 Demo.alone Demo.alone
                 (Demo.start (Demo.empty_world ["/music"]))
                 (final (Populate (Demo.env true Demo.quiet) "K1" Demo.alone
                           (Demo.start (Demo.empty_world ["/music"]))))).
  destruct H as (_ & H & _).
  - intros f g. simpl. unfold Demo.tags_of.
    destruct (String.eqb_spec f "/music/a.mp3") as [->|_];
      [intros Hg; now injection Hg as <-|].
    destruct (String.eqb_spec f "/music/b.mp3") as [->|_];
      [intros Hg; now injection Hg as <-|].
    destruct (String.eqb_spec f "/home/u/x.mp3") as [->|_];
      [intros Hg; now injection Hg as <-|discriminate].
  - intros f g. simpl. unfold Demo.tags_of.
    destruct (String.eqb_spec f "/music/a.mp3") as [->|_];
      [intros _; discriminate|].
    destruct (String.eqb_spec f "/music/b.mp3") as [->|_];
      [intros _; discriminate|].
    destruct (String.eqb_spec f "/home/u/x.mp3") as [->|_];
      [intros _; discriminate|discriminate].
  - intros w. simpl.
    split; [exists (fun _ => true); apply filter_everything|].
    split; [exists (fun _ => true); apply filter_everything|].
    split; [intros g Hg _; exact Hg|]. repeat split.
  - intros w. now split.
  - intros w. now split.
  - intros w. now split.
  - intros g [].
  - vm_compute. reflexivity.
  - exact H.
Defined.

(** C8 as the spec states it fails: the first run finds [a.mp3] modified and
    removes its track; the second run, with nothing changed on disk in
    between, finds the file untagged and adds a Track for it. *)
Lemma second_run_reingests_modified_file :
  Populate (Demo.env true Demo.quiet) "K1" Demo.alone
    (Demo.start Demo.scanned_before)
  = Ok tt (final (Populate (Demo.env true Demo.quiet) "K1" Demo.alone
                    (Demo.start Demo.scanned_before)))
  /\ map Track.filepath
       (TrackStore_tracks
          (world (final (Populate (Demo.env true Demo.quiet) "K1" Demo.alone
                           (Demo.start Demo.scanned_before)))))
     = ["/music/b.mp3"]
  /\ map Track.filepath
       (TrackStore_tracks
          (world (final (Populate (Demo.env true Demo.quiet) "K2" Demo.alone
                           (final (Populate (Demo.env true Demo.quiet) "K1"
                                     Demo.alone
                                     (Demo.start Demo.scanned_before)))))))
     = ["/music/b.mp3"; "/music/a.mp3"].
Proof. repeat split; vm_compute; reflexivity. Qed.

(** * Further properties of [populate.py] *)

(** ** No root directory configured (lines 52-61) *)

(** X1: when no root directory is configured, [Populate] returns right
    after the warning: the world is the one [validate_tracks] left, so no
    stale track is removed, nothing is scanned or ingested, and no later
    stage is invoked. *)
Theorem no_roots_is_noop (E : Env) (key : string) (sched : schedule)
  (w0 : World) (ev0 : list event) (w1 : World) :
  validate_tracks E (set_POPULATE_KEY key w0) = (Returned, w1) ->
  db_root_dirs w1 = [] ->
  Populate E key sched (mkSt w0 ev0)
  = Ok tt
      (mkSt w1
         (ev0 ++ [Call ValidateTracks;
                  Log WARNING
                    "The root directory is not configured. Open the app in your webbrowser to configure."
                    []])).
Proof.
  intros Hv Hr. unfold Populate. unfold bind at 1.
  rewrite detect_changes_eq. cbn zeta. rewrite Hv. cbn [fst snd].
  rewrite Hr. cbn [length Nat.eqb]. unfold ret.
  now rewrite <- app_assoc.
Qed.

Lemma no_roots_is_noop_witness :
  Populate (Demo.env true Demo.quiet) "K1" Demo.alone
    (Demo.start
       (mkWorld "" [Track_of_tags Demo.tags_a_old] [] [] [Demo.tags_a_old]
          [] []))
  = Ok tt
      (mkSt (mkWorld "K1" [Track_of_tags Demo.tags_a_old] [] []
               [Demo.tags_a_old] [] [])
         [Call ValidateTracks;
          Log WARNING
            "The root directory is not configured. Open the app in your webbrowser to configure."
            []]).
Proof.
  exact (no_roots_is_noop (Demo.env true Demo.quiet) "K1" Demo.alone
           (mkWorld "" [Track_of_tags Demo.tags_a_old] [] []
              [Demo.tags_a_old] [] [])
           []
           (mkWorld "K1" [Track_of_tags Demo.tags_a_old] [] []
              [Demo.tags_a_old] [] [])
           eq_refl eq_refl).
Defined.

(** ** The untagged set (lines 112-115) *)

(** X2: a path is untagged exactly when it was scanned and no known track
    has it as filepath; the set holds no path twice, however often the scan
    listed it; and it is empty when every scanned file has a track. *)
Theorem filter_untagged_spec (tracks : list Track.t) (files : list string) :
  (forall f, In f (filter_untagged tracks files)
             <-> In f files
                 /\ forall t, In t tracks -> Track.filepath t <> f)
  /\ NoDup (filter_untagged tracks files)
  /\ ((forall f, In f files ->
         exists t, In t tracks /\ Track.filepath t = f) ->
      filter_untagged tracks files = []).
Proof.
  assert (Hin : forall f, In f (filter_untagged tracks files)
             <-> In f files
                 /\ forall t, In t tracks -> Track.filepath t <> f).
  { intros f. rewrite filter_untagged_In. split; intros (Hf & Hn).
    - split; [exact Hf|]. intros t Ht Heq. apply Hn. rewrite <- Heq.
      now apply in_map.
    - split; [exact Hf|]. intros Hm. apply in_map_iff in Hm.
      destruct Hm as (t & Heq & Ht). now apply (Hn t Ht). }
  split; [exact Hin|]. split.
  - unfold filter_untagged. apply NoDup_nodup.
  - intros Hall. destruct (filter_untagged tracks files) as [|f l] eqn:Hu;
      [reflexivity|]. exfalso.
    assert (Hf : In f (f :: l)) by now left.
    apply Hin in Hf. destruct Hf as (Hf & Hn).
    destruct (Hall f Hf) as (t & Ht & Heq). now apply (Hn t Ht).
Qed.

(** ** Stale tracks, continued (lines 103-110) *)

Lemma modified_paths_first_unreadable E : forall tracks t,
  In t tracks -> getmtime E (Track.filepath t) = None ->
  exists pre u post,
    tracks = pre ++ u :: post
    /\ (forall x, In x pre -> getmtime E (Track.filepath x) <> None)
    /\ getmtime E (Track.filepath u) = None
    /\ modified_paths E tracks = inl (OSError (Track.filepath u)).
Proof.
  induction tracks as [|x xs IH]; intros t Hin Hn; [destruct Hin|].
  destruct (getmtime E (Track.filepath x)) as [m|] eqn:Hm.
  - destruct Hin as [->|Hin]; [congruence|].
    destruct (IH t Hin Hn) as (pre & u & post & Heq & Hpre & Hu & Hmp).
    exists (x :: pre), u, post. repeat split.
    + simpl. now rewrite Heq.
    + intros y [<-|Hy]; [congruence|now apply Hpre].
    + exact Hu.
    + simpl. now rewrite Hm, Hmp.
  - exists [], x, xs. repeat split; try assumption.
    + intros y [].
    + simpl. now rewrite Hm.
Qed.

(** X3: as soon as the file of one known track cannot be read,
    [remove_modified] raises the [OSError] of the first such track in list
    order and leaves the whole state as it was: the stale tracks that
    precede or follow it are not removed either. *)
Theorem remove_modified_unreadable (E : Env) (tracks : list Track.t)
  (s : St) (t : Track.t) :
  In t tracks ->
  getmtime E (Track.filepath t) = None ->
  exists pre u post,
    tracks = pre ++ u :: post
    /\ (forall x, In x pre -> getmtime E (Track.filepath x) <> None)
    /\ getmtime E (Track.filepath u) = None
    /\ remove_modified E tracks s = Raise (OSError (Track.filepath u)) s.
Proof.
  intros Hin Hn.
  destruct (modified_paths_first_unreadable E tracks t Hin Hn)
    as (pre & u & post & Heq & Hpre & Hu & Hmp).
  exists pre, u, post. repeat split; try assumption.
  unfold remove_modified. now rewrite Hmp.
Qed.

Lemma remove_modified_unreadable_witness :
  exists pre u post,
    [Track_of_tags Demo.tags_a_old;
     Track_of_tags (Tags.mk "/music/gone.mp3" 10 "77aa" "albA" [] [] "")]
    = pre ++ u :: post
    /\ (forall x, In x pre ->
          getmtime (Demo.env true Demo.quiet) (Track.filepath x) <> None)
    /\ getmtime (Demo.env true Demo.quiet) (Track.filepath u) = None
    /\ remove_modified (Demo.env true Demo.quiet)
         [Track_of_tags Demo.tags_a_old;
          Track_of_tags (Tags.mk "/music/gone.mp3" 10 "77aa" "albA" [] [] "")]
         (Demo.start Demo.scanned_before)
       = Raise (OSError (Track.filepath u)) (Demo.start Demo.scanned_before).
Proof.
  apply (remove_modified_unreadable (Demo.env true Demo.quiet) _
           (Demo.start Demo.scanned_before)
           (Track_of_tags (Tags.mk "/music/gone.mp3" 10 "77aa" "albA" [] [] ""))).
  - right. now left.
  - reflexivity.
Defined.

Lemma filter_idem A (p : A -> bool) l : filter p (filter p l) = filter p l.
Proof.
  apply filter_all. intros x Hx. apply filter_In in Hx. tauto.
Qed.

(** X4: removing stale tracks is idempotent: when [remove_modified] has
    returned, calling it again on the same track list returns and changes
    nothing more. *)
Theorem remove_modified_idempotent (E : Env) (tracks : list Track.t)
  (s s' : St) :
  remove_modified E tracks s = Ok tt s' ->
  remove_modified E tracks s' = Ok tt s'.
Proof.
  unfold remove_modified.
  destruct (modified_paths E tracks) as [e|modified]; [discriminate|].
  intros H. injection H as <-. destruct s as [w ev].
  unfold bind, TrackStore.remove_tracks_by_filepaths,
    remove_tracks_by_filepaths, modify. simpl.
  unfold set_db_tracks, set_tracks. simpl. now rewrite !filter_idem.
Qed.

Lemma remove_modified_idempotent_witness :
  remove_modified (Demo.env true Demo.quiet)
    [Track_of_tags Demo.tags_a_old; Track_of_tags Demo.tags_b]
    (mkSt (mkWorld "" [Track_of_tags Demo.tags_b]
             [Album.mk "albA" "albA.webp"] [Artist.mk "X" "#X"]
             [Demo.tags_b] [] ["/music"]) [])
  = Ok tt
      (mkSt (mkWorld "" [Track_of_tags Demo.tags_b]
               [Album.mk "albA" "albA.webp"] [Artist.mk "X" "#X"]
               [Demo.tags_b] [] ["/music"]) []).
Proof.
  apply (remove_modified_idempotent (Demo.env true Demo.quiet)
           [Track_of_tags Demo.tags_a_old; Track_of_tags Demo.tags_b]
           (Demo.start Demo.scanned_before)).
  reflexivity.
Defined.

(** X5: when the recorded [last_mod] of every known track equals the mtime
    of its file, [remove_modified] returns and leaves the state exactly as
    it was. *)
Theorem remove_modified_fresh_noop (E : Env) (tracks : list Track.t)
  (s : St) :
  (forall t, In t tracks ->
     getmtime E (Track.filepath t) = Some (Track.last_mod t)) ->
  remove_modified E tracks s = Ok tt s.
Proof.
  intros Hf. unfold remove_modified. rewrite (modified_paths_fresh E _ Hf).
  destruct s as [w ev].
  unfold bind, TrackStore.remove_tracks_by_filepaths,
    remove_tracks_by_filepaths, modify. simpl.
  unfold set_db_tracks, set_tracks. simpl.
  rewrite !filter_all by (intros; reflexivity). now destruct w.
Qed.

Lemma remove_modified_fresh_noop_witness :
  remove_modified (Demo.env true Demo.quiet)
    [Track_of_tags Demo.tags_a; Track_of_tags Demo.tags_b]
    (Demo.start Demo.scanned_before)
  = Ok tt (Demo.start Demo.scanned_before).
Proof.
  apply (remove_modified_fresh_noop (Demo.env true Demo.quiet)).
  intros t [<-|[<-|[]]]; reflexivity.
Defined.

(** ** A modified file within one run (lines 74-78) *)

Lemma tagged_filepaths E fs :
  (forall f g, get_tags E f = Some g -> Tags.filepath g = f) ->
  forall p, In p (map Tags.filepath (tagged E fs)) -> In p fs.
Proof.
  intros Htags p Hp. apply in_map_iff in Hp. destruct Hp as (g & <- & Hg).
  unfold tagged in Hg. apply in_flat_map in Hg. destruct Hg as (f & Hf & Hg).
  destruct (get_tags E f) as [g'|] eqn:Hgt; [|destruct Hg].
  destruct Hg as [<-|[]]. now rewrite (Htags f g' Hgt).
Qed.

(** X6: a known track whose file was modified is removed from both stores
    by the run that detects it, and that run does not ingest the file
    again: its path is not in the untagged set, which is computed from the
    track list read before the removal, and so no track for it is in the
    store when tag ingestion ends.  The file is picked up by the next run.
    The tag extractor records the path it is given as the filepath. *)
Theorem modified_file_waits_for_next_run (E : Env) (key : string)
  (sched : schedule) (w0 : World) (ev0 : list event) (w1 : World)
  (g : Tags.t) :
  (forall f r, get_tags E f = Some r -> Tags.filepath r = f) ->
  validate_tracks E (set_POPULATE_KEY key w0) = (Returned, w1) ->
  db_root_dirs w1 <> [] ->
  (forall r, In r (db_tracks w1) -> getmtime E (Tags.filepath r) <> None) ->
  In g (db_tracks w1) ->
  getmtime E (Tags.filepath g) <> Some (Tags.last_mod g) ->
  exists untagged s1,
    detect_changes E key (mkSt w0 ev0) = Ok (Some untagged) s1
    /\ ~ In (Tags.filepath g) untagged
    /\ ~ In (Tags.filepath g) (map Tags.filepath (db_tracks (world s1)))
    /\ ~ In (Tags.filepath g)
           (map Track.filepath (TrackStore_tracks (world s1)))
    /\ ~ In (Tags.filepath g)
           (map Track.filepath
              (TrackStore_tracks
                 (world (final (tag_untagged E untagged key sched s1))))).
Proof.
  intros Htags Hv Hroots Hread Hg Hstale.
  destruct (modified_paths_readable E (map Track_of_tags (db_tracks w1)))
    as (l & Hl & Hin).
  { intros t Ht. apply in_map_iff in Ht. destruct Ht as (r & <- & Hr).
    now apply Hread. }
  assert (Hp : In (Tags.filepath g) l).
  { apply Hin. exists (Track_of_tags g). split; [now apply in_map|].
    split; [reflexivity|exact Hstale]. }
  assert (Hnf : forall A (f : A -> string) xs,
            ~ In (Tags.filepath g)
                (map f (filter (fun x => negb (mem (f x) l)) xs))).
  { intros A f xs Hc. apply in_map_iff in Hc. destruct Hc as (x & Hx & Hf).
    apply filter_In in Hf. destruct Hf as (_ & Hf).
    apply negb_true_iff, mem_false in Hf. apply Hf. now rewrite Hx. }
  assert (Hun : ~ In (Tags.filepath g)
                  (filter_untagged (map Track_of_tags (db_tracks w1))
                     (scan_files E (resolve_dirs E (db_root_dirs w1))))).
  { intros Hc. apply filter_untagged_In in Hc. destruct Hc as (_ & Hc).
    apply Hc. rewrite map_map. apply in_map_iff. now exists g. }
  eexists. eexists. split.
  { rewrite detect_changes_eq. cbn zeta. rewrite Hv. cbn [fst snd].
    destruct (db_root_dirs w1) as [|d ds] eqn:Hd; [now elim Hroots|].
    cbn [length Nat.eqb]. rewrite Hl. rewrite <- Hd. reflexivity. }
  split; [exact Hun|]. cbn [world db_tracks TrackStore_tracks].
  split; [apply (Hnf _ Tags.filepath)|]. split; [apply (Hnf _ Track.filepath)|].
  match goal with |- context [tag_untagged E ?u key sched (mkSt ?w ?ev)] =>
    destruct (tag_untagged_final E u key sched w ev) as (Ht & _) end.
  rewrite Ht, fold_tag_world_tracks. cbn [TrackStore_tracks].
  rewrite map_app. intros Hc. apply in_app_or in Hc.
  destruct Hc as [Hc|Hc]; [now apply (Hnf _ Track.filepath) in Hc|].
  rewrite map_map in Hc.
  apply (tagged_filepaths E _ Htags) in Hc.
  apply uncancelled_In in Hc. now apply Hun.
Qed.

Lemma modified_file_waits_for_next_run_witness :
  exists untagged s1,
    detect_changes (Demo.env true Demo.quiet) "K1"
      (Demo.start Demo.scanned_before)
    = Ok (Some untagged) s1
    /\ ~ In "/music/a.mp3" untagged.
Proof.
  destruct (modified_file_waits_for_next_run (Demo.env true Demo.quiet) "K1"
              Demo.alone Demo.scanned_before []
              (set_POPULATE_KEY "K1" Demo.scanned_before) Demo.tags_a_old)
    as (u & s1 & H1 & H2 & _).
  - intros f r. simpl. unfold Demo.tags_of.
    destruct (String.eqb_spec f "/music/a.mp3") as [->|_];
      [intros Hg; now injection Hg as <-|].
    destruct (String.eqb_spec f "/music/b.mp3") as [->|_];
      [intros Hg; now injection Hg as <-|].
    destruct (String.eqb_spec f "/home/u/x.mp3") as [->|_];
      [intros Hg; now injection Hg as <-|discriminate].
  - reflexivity.
  - discriminate.
  - intros r [<-|[<-|[]]]; discriminate.
  - now left.
  - discriminate.
  - exists u, s1. split; [exact H1|exact H2].
Defined.

(** ** A tag-ingestion stage that runs to its end (lines 117-158) *)

Lemma tagged_length E fs : length (tagged E fs) <= length fs.
Proof.
  induction fs as [|f fs IH]; simpl; [lia|].
  unfold tagged in *. simpl. rewrite length_app.
  destruct (get_tags E f); simpl; lia.
Qed.

Lemma uncancelled_complete key files sched k :
  (forall i, i < length files -> key_at sched k i = key) ->
  uncancelled key sched k files = files.
Proof.
  intros H. apply uncancelled_full. now apply uncancelled_all.
Qed.

(** X7: when every check reads the captured key, [tag_untagged] returns;
    the in-memory store has gained one track per file the tag extractor
    could read, in iteration order, and the persistent table the tag dicts
    of the very same files in the same order; files the extractor could not
    read are skipped without ending the loop; favourites and configured
    roots are as before. *)
Theorem tag_untagged_completes (E : Env) (key : string) (sched : schedule)
  (files : list string) (w : World) (ev : list event) :
  (forall i, i < length files -> key_at sched (POPULATE_KEY w) i = key) ->
  exists s',
    tag_untagged E files key sched (mkSt w ev) = Ok tt s'
    /\ TrackStore_tracks (world s')
       = TrackStore_tracks w
         ++ map (tagged_track (fav_string w)) (tagged E files)
    /\ db_tracks (world s') = db_tracks w ++ tagged E files
    /\ db_favorites (world s') = db_favorites w
    /\ db_root_dirs (world s') = db_root_dirs w.
Proof.
  intros Hall.
  pose proof (uncancelled_complete key files sched _ Hall) as Hu.
  destruct (fold_tag_world_db E (fav_string w) files w) as (Hdb & Hfav & Hrd).
  pose proof (fold_tag_world_tracks E (fav_string w) files w) as Htr.
  rewrite tag_untagged_eq. cbn zeta. rewrite Hu, Nat.eqb_refl, fold_tag_acc.
  cbn [fst snd app].
  destruct (Nat.ltb 0 (length (tagged E files))) eqn:Hlt; eexists;
    (split; [reflexivity|]);
    cbn [world TrackStore_tracks db_tracks db_favorites db_root_dirs
           set_POPULATE_KEY set_db_tracks];
    rewrite ?Hdb, ?Hfav, ?Hrd, ?Htr; repeat split.
  apply Nat.ltb_ge in Hlt. destruct (tagged E files); [|simpl in Hlt; lia].
  now rewrite app_nil_r.
Qed.

Lemma tag_untagged_completes_witness :
  exists s',
    tag_untagged (Demo.env true Demo.quiet)
      ["/music/a.mp3"; "/music/c.txt"; "/music/b.mp3"] "K1" Demo.alone
      (mkSt (mkWorld "K1" [] [] [] [] [] ["/music"]) [])
    = Ok tt s'
    /\ db_tracks (world s') = [Demo.tags_a; Demo.tags_b].
Proof.
  destruct (tag_untagged_completes (Demo.env true Demo.quiet) "K1" Demo.alone
              ["/music/a.mp3"; "/music/c.txt"; "/music/b.mp3"]
              (mkWorld "K1" [] [] [] [] [] ["/music"]) [])
    as (s' & H1 & _ & H2 & _).
  - intros [|[|[|i]]] Hi; try reflexivity. simpl in Hi. lia.
  - exists s'. split; [exact H1|exact H2].
Defined.

(** X8: the report of a stage that ran to its end: the first record gives
    the number of files, the last one the number of files tagged out of the
    number of files, which it never exceeds, and the record announcing the
    bulk insert is there exactly when at least one file was tagged. *)
Theorem tag_untagged_report (E : Env) (key : string) (sched : schedule)
  (files : list string) (w : World) (ev : list event) :
  (forall i, i < length files -> key_at sched (POPULATE_KEY w) i = key) ->
  events (final (tag_untagged E files key sched (mkSt w ev)))
  = ev
    ++ Log INFO "Found %s new tracks" [ArgN (length files)]
       :: flat_map (tag_events E) files
    ++ (if Nat.ltb 0 (length (tagged E files))
        then [Log INFO "Adding %s tracks to database"
                [ArgN (length (tagged E files))]]
        else [])
    ++ [Log INFO "Added %s/%s tracks"
          [ArgN (length (tagged E files)); ArgN (length files)]]
  /\ length (tagged E files) <= length files.
Proof.
  intros Hall. split; [|apply tagged_length].
  pose proof (uncancelled_complete key files sched _ Hall) as Hu.
  rewrite tag_untagged_eq. cbn zeta. rewrite Hu, Nat.eqb_refl, fold_tag_acc.
  cbn [fst snd app Nat.add].
  destruct (Nat.ltb 0 (length (tagged E files))); cbn [final events];
    rewrite <- app_assoc; cbn [app]; rewrite <- ?app_assoc; reflexivity.
Qed.

Lemma tag_untagged_report_witness :
  events (final (tag_untagged (Demo.env true Demo.quiet)
                   ["/music/c.txt"] "K1" Demo.alone
                   (mkSt (mkWorld "K1" [] [] [] [] [] ["/music"]) [])))
  = [Log INFO "Found %s new tracks" [ArgN 1];
     GetTags "/music/c.txt";
     Log WARNING "Could not read file: %s" [ArgS "/music/c.txt"];
     Log INFO "Added %s/%s tracks" [ArgN 0; ArgN 1]].
Proof.
  refine (proj1 (tag_untagged_report (Demo.env true Demo.quiet) "K1"
                   Demo.alone ["/music/c.txt"]
                   (mkWorld "K1" [] [] [] [] [] ["/music"]) [] _)).
  intros [|i] Hi; [reflexivity|simpl in Hi; lia].
Defined.

(** X9: whether the stage returns or is cancelled, it has logged the
    warning that a file could not be read for exactly the files that were
    handed to the tag extractor and for which it gave no result. *)
Theorem unreadable_files_are_logged (E : Env) (key : string)
  (sched : schedule) (files : list string) (w : World) (ev : list event)
  (f : string) :
  In (Log WARNING "Could not read file: %s" [ArgS f])
     (events (final (tag_untagged E files key sched (mkSt w ev))))
  <-> In (Log WARNING "Could not read file: %s" [ArgS f]) ev
      \/ (In f (uncancelled key sched (POPULATE_KEY w) files)
          /\ get_tags E f = None).
Proof.
  assert (Hfm : forall fs,
            In (Log WARNING "Could not read file: %s" [ArgS f])
               (flat_map (tag_events E) fs)
            <-> In f fs /\ get_tags E f = None).
  { intros fs. rewrite in_flat_map. split.
    - intros (x & Hx & Hin). unfold tag_events in Hin.
      destruct Hin as [Hin|Hin]; [discriminate Hin|].
      destruct (get_tags E x) eqn:Hg; [destruct Hin|].
      destruct Hin as [Hin|[]]. injection Hin as ->. now split.
    - intros (Hx & Hg). exists f. split; [exact Hx|].
      unfold tag_events. rewrite Hg. right. now left. }
  rewrite tag_untagged_eq. cbn zeta.
  destruct (Nat.eqb _ _); [destruct (Nat.ltb _ _)|]; cbn [final events];
    rewrite ?in_app_iff; cbn [In]; rewrite ?in_app_iff; cbn [In];
    rewrite Hfm; split; intros H.
  - destruct H as [[H|[H|H]]|[H|[H|[]]]]; try discriminate H; tauto.
  - tauto.
  - destruct H as [[H|[H|H]]|[H|[]]]; try discriminate H; tauto.
  - tauto.
  - destruct H as [H|[H|H]]; try discriminate H; tauto.
  - tauto.
Qed.

Lemma add_album_of_extends t l : exists added, add_album_of t l = l ++ added.
Proof.
  unfold add_album_of. destruct (mem _ _); eexists;
    [symmetry; apply app_nil_r|reflexivity].
Qed.

Lemma fold_add_missing_extends E : forall xs l,
  exists added, fold_left (add_missing E) xs l = l ++ added.
Proof.
  induction xs as [|x xs IH]; intros l; simpl.
  - exists []. now rewrite app_nil_r.
  - destruct (IH (add_missing E l x)) as (ad & He). rewrite He.
    unfold add_missing. destruct (mem _ _).
    + now exists ad.
    + eexists. rewrite <- app_assoc. reflexivity.
Qed.

Lemma fold_tag_world_extends E fav : forall fs w,
  (exists added, AlbumStore_albums (fold_left (tag_world E fav) fs w)
                 = AlbumStore_albums w ++ added)
  /\ (exists added, ArtistStore_artists (fold_left (tag_world E fav) fs w)
                    = ArtistStore_artists w ++ added).
Proof.
  induction fs as [|f fs IH]; intros w; simpl.
  - split; exists []; now rewrite app_nil_r.
  - destruct (IH (tag_world E fav w f)) as ((a1 & H1) & (b1 & H2)).
    rewrite H1, H2. unfold tag_world.
    destruct (get_tags E f) as [g|]; cbn [AlbumStore_albums ArtistStore_artists].
    + destruct (add_album_of_extends (tagged_track fav g) (AlbumStore_albums w))
        as (a0 & Ha0).
      destruct (fold_add_missing_extends E (Track.artist (tagged_track fav g))
                  (ArtistStore_artists w)) as (b0 & Hb0).
      destruct (fold_add_missing_extends E
                  (Track.albumartist (tagged_track fav g))
                  (fold_left (add_missing E)
                     (Track.artist (tagged_track fav g))
                     (ArtistStore_artists w))) as (b0' & Hb0').
      rewrite Ha0, Hb0', Hb0. split; eexists; rewrite <- !app_assoc;
        reflexivity.
    + split; eexists; reflexivity.
Qed.

Lemma final_key_alone key files k : final_key key [] k files = k.
Proof.
  induction files as [|f fs IH]; simpl; [reflexivity|].
  destruct (String.eqb k key); [exact IH|reflexivity].
Qed.

(** X10: what tag ingestion never does, whether it returns or is
    cancelled: it removes or reorders no entry of the Track, Album and
    Artist stores nor any row of the persistent table, all of which it only
    appends to; it leaves the favourites and the configured roots alone; and
    it does not write [POPULATE_KEY] itself, which keeps its value when no
    other session is started. *)
Theorem tag_untagged_only_appends (E : Env) (key : string)
  (sched : schedule) (files : list string) (w : World) (ev : list event) :
  (exists added,
     TrackStore_tracks
       (world (final (tag_untagged E files key sched (mkSt w ev))))
     = TrackStore_tracks w ++ added)
  /\ (exists added,
        AlbumStore_albums
          (world (final (tag_untagged E files key sched (mkSt w ev))))
        = AlbumStore_albums w ++ added)
  /\ (exists added,
        ArtistStore_artists
          (world (final (tag_untagged E files key sched (mkSt w ev))))
        = ArtistStore_artists w ++ added)
  /\ (exists added,
        db_tracks (world (final (tag_untagged E files key sched (mkSt w ev))))
        = db_tracks w ++ added)
  /\ db_favorites (world (final (tag_untagged E files key sched (mkSt w ev))))
     = db_favorites w
  /\ db_root_dirs (world (final (tag_untagged E files key sched (mkSt w ev))))
     = db_root_dirs w
  /\ (sched = [] ->
      POPULATE_KEY (world (final (tag_untagged E files key sched (mkSt w ev))))
      = POPULATE_KEY w).
Proof.
  destruct (tag_untagged_final E files key sched w ev) as (Ht & Ha & Hb).
  destruct (fold_tag_world_extends E (fav_string w)
              (uncancelled key sched (POPULATE_KEY w) files) w) as (Hxa & Hxb).
  rewrite Ht, Ha, Hb, fold_tag_world_tracks.
  split; [eexists; reflexivity|]. split; [exact Hxa|]. split; [exact Hxb|].
  destruct (fold_tag_world_db E (fav_string w)
              (uncancelled key sched (POPULATE_KEY w) files) w)
    as (Hdb & Hfav & Hrd).
  rewrite tag_untagged_eq. cbn zeta.
  destruct (Nat.eqb _ _); [destruct (Nat.ltb _ _)|];
    cbn [final world db_tracks db_favorites db_root_dirs POPULATE_KEY
           set_POPULATE_KEY set_db_tracks];
    rewrite ?Hdb, ?Hfav, ?Hrd;
    (split; [eexists; try reflexivity; symmetry; apply app_nil_r|]);
    (split; [reflexivity|]); (split; [reflexivity|]);
    intros ->; apply final_key_alone.
Qed.

(** ** The album of a track (lines 139-140) *)

Lemma uncancelled_through key : forall pre sched k f post,
  (forall i, i <= length pre -> key_at sched k i = key) ->
  exists rest, uncancelled key sched k (pre ++ f :: post) = pre ++ f :: rest.
Proof.
  induction pre as [|p pre IH]; intros sched k f post Hall; simpl.
  - pose proof (Hall 0 (le_n _)) as H0. simpl in H0.
    rewrite H0, String.eqb_refl. eexists. reflexivity.
  - pose proof (Hall 0 (Nat.le_0_l _)) as H0. simpl in H0.
    rewrite H0, String.eqb_refl.
    destruct (IH (tl sched) key f post) as (rest & Hr).
    + intros i Hi. specialize (Hall (S i)). simpl in Hall.
      rewrite H0 in Hall. apply Hall. simpl. lia.
    + rewrite Hr. eexists. reflexivity.
Qed.

Lemma fold_tag_world_album_hashes E fav : forall fs w h,
  In h (map Album.albumhash
          (AlbumStore_albums (fold_left (tag_world E fav) fs w))) ->
  In h (map Album.albumhash (AlbumStore_albums w))
  \/ exists f g, In f fs /\ get_tags E f = Some g /\ Tags.albumhash g = h.
Proof.
  induction fs as [|x fs IH]; intros w h Hin; simpl in Hin; [now left|].
  apply IH in Hin. destruct Hin as [Hin|(f & g & Hf & Hg & Hh)].
  - unfold tag_world in Hin. destruct (get_tags E x) as [g|] eqn:Hg;
      [|now left]. cbn [AlbumStore_albums] in Hin.
    unfold add_album_of in Hin. destruct (mem _ _); [now left|].
    rewrite map_app in Hin. apply in_app_or in Hin.
    destruct Hin as [Hin|[<-|[]]]; [now left|].
    right. exists x, g. split; [now left|]. now split.
  - right. exists f, g. split; [now right|]. now split.
Qed.

Lemma NoDup_map_same A B (f : A -> B) l x y :
  NoDup (map f l) -> In x l -> In y l -> f x = f y -> x = y.
Proof.
  induction l as [|a l IH]; intros Hnd Hx Hy Heq; [destruct Hx|].
  simpl in Hnd. inversion Hnd as [|? ? Hna Hnd']; subst.
  destruct Hx as [->|Hx], Hy as [->|Hy].
  - reflexivity.
  - exfalso. apply Hna. rewrite Heq. now apply in_map.
  - exfalso. apply Hna. rewrite <- Heq. now apply in_map.
  - now apply IH.
Qed.

(** X11: first writer wins.  When a file is ingested whose albumhash is
    neither in the Album store nor carried by a file ingested before it,
    the store gets the album made from that track, with the track's image;
    files of the same album that come later do not replace it, so in a
    store without duplicate hashes it is the only album with that hash
    when the stage ends. *)
Theorem album_first_writer_wins (E : Env) (key : string) (sched : schedule)
  (pre : list string) (f : string) (post : list string)
  (w : World) (ev : list event) (g : Tags.t) :
  (forall i, i <= length pre -> key_at sched (POPULATE_KEY w) i = key) ->
  get_tags E f = Some g ->
  ~ In (Tags.albumhash g) (map Album.albumhash (AlbumStore_albums w)) ->
  (forall f' g', In f' pre -> get_tags E f' = Some g' ->
                 Tags.albumhash g' <> Tags.albumhash g) ->
  In (Album.mk (Tags.albumhash g) (Tags.image g))
     (AlbumStore_albums
        (world (final (tag_untagged E (pre ++ f :: post) key sched
                         (mkSt w ev)))))
  /\ (NoDup (map Album.albumhash
               (AlbumStore_albums
                  (world (final (tag_untagged E (pre ++ f :: post) key sched
                                   (mkSt w ev)))))) ->
      forall a,
        In a (AlbumStore_albums
                (world (final (tag_untagged E (pre ++ f :: post) key sched
                                 (mkSt w ev))))) ->
        Album.albumhash a = Tags.albumhash g ->
        a = Album.mk (Tags.albumhash g) (Tags.image g)).
Proof.
  intros Hall Hg Hnew Hpre.
  assert (Hin : In (Album.mk (Tags.albumhash g) (Tags.image g))
     (AlbumStore_albums
        (world (final (tag_untagged E (pre ++ f :: post) key sched
                         (mkSt w ev)))))).
  { destruct (tag_untagged_final E (pre ++ f :: post) key sched w ev)
      as (_ & Ha & _). rewrite Ha.
    destruct (uncancelled_through key pre sched (POPULATE_KEY w) f post Hall)
      as (rest & Hr). rewrite Hr.
    rewrite fold_left_app. cbn [fold_left].
    set (w1 := fold_left (tag_world E (fav_string w)) pre w).
    destruct (fold_tag_world_extends E (fav_string w) rest
                (tag_world E (fav_string w) w1 f)) as ((ad & He) & _).
    rewrite He. apply in_or_app. left.
    assert (Hn1 : ~ In (Tags.albumhash g)
                    (map Album.albumhash (AlbumStore_albums w1))).
    { intros Hc. apply fold_tag_world_album_hashes in Hc.
      destruct Hc as [Hc|(f' & g' & Hf' & Hg' & Hh)]; [now apply Hnew|].
      now apply (Hpre f' g'). }
    unfold tag_world. rewrite Hg. cbn [AlbumStore_albums].
    unfold add_album_of. cbn [tagged_track Track.albumhash
      Track.set_is_favorite Track_of_tags].
    apply mem_false in Hn1. rewrite Hn1.
    apply in_or_app. right. now left. }
  split; [exact Hin|].
  intros Hnd a Ha Hh.
  apply (NoDup_map_same _ _ Album.albumhash _ a _ Hnd Ha Hin). exact Hh.
Qed.

Lemma album_first_writer_wins_witness :
  In (Album.mk "albA" "albA.webp")
     (AlbumStore_albums
        (world (final (tag_untagged (Demo.env true Demo.quiet)
                         (["/home/u/x.mp3"] ++ "/music/a.mp3"
                                               :: ["/music/b.mp3"])
                         "K1" Demo.alone
                         (mkSt (mkWorld "K1" [] [] [] [] [] ["/music"])
                               []))))).
Proof.
  refine (proj1 (album_first_writer_wins (Demo.env true Demo.quiet) "K1"
                   Demo.alone ["/home/u/x.mp3"] "/music/a.mp3"
                   ["/music/b.mp3"]
                   (mkWorld "K1" [] [] [] [] [] ["/music"]) []
                   Demo.tags_a _ _ _ _)).
  - intros [|[|i]] Hi; try reflexivity. simpl in Hi. lia.
  - reflexivity.
  - intros [].
  - intros f' g' [<-|[]] Hg'. vm_compute in Hg'. injection Hg' as <-.
    discriminate.
Defined.

(** ** Thumbnails (lines 161-179) *)

Lemma for_each_get_image albums : forall w ev,
  for_each albums get_image (mkSt w ev)
  = Ok tt (mkSt w (ev ++ flat_map (thumb_of (TrackStore_tracks w)) albums)).
Proof.
  induction albums as [|a albums IH]; intros w ev; simpl.
  - unfold ret. now rewrite app_nil_r.
  - unfold bind at 1. unfold get_image at 1. unfold bind at 1, get at 1.
    cbn [world events]. unfold thumb_of at 1.
    destruct (find _ (TrackStore_tracks w)) as [t|].
    + unfold emit. cbn [world events]. rewrite IH.
      now rewrite <- app_assoc.
    + unfold ret at 1. rewrite IH. reflexivity.
Qed.

Lemma thumb_of_length tracks a : length (thumb_of tracks a) <= 1.
Proof. unfold thumb_of. destruct (find _ tracks); simpl; lia. Qed.

(** X12: the thumbnail stage returns and leaves the world untouched; for
    each album, in turn, it asks for the artwork of the first track of the
    store that carries the album's hash, and of no other track; an album
    without track gets no extraction, so there are at most as many
    extractions as albums. *)
Theorem thumbnails_first_track_only (s : St) :
  ProcessTrackThumbnails s
  = Ok tt
      (mkSt (world s)
         (events s
          ++ Call TrackThumbnails
             :: flat_map (thumb_of (TrackStore_tracks (world s)))
                  (AlbumStore_albums (world s))))
  /\ length (flat_map (thumb_of (TrackStore_tracks (world s)))
               (AlbumStore_albums (world s)))
     <= length (AlbumStore_albums (world s))
  /\ (forall a t,
        thumb_of (TrackStore_tracks (world s)) a
        = [ExtractThumb (Track.filepath t) (Track.image t)] ->
        exists pre t' post,
          TrackStore_tracks (world s) = pre ++ t' :: post
          /\ (forall u, In u pre ->
                Track.albumhash u <> Album.albumhash a)
          /\ Track.albumhash t' = Album.albumhash a
          /\ Track.filepath t' = Track.filepath t
          /\ Track.image t' = Track.image t).
Proof.
  destruct s as [w ev]. cbn [world events]. split; [|split].
  - unfold ProcessTrackThumbnails. unfold bind at 1, emit at 1.
    cbn [world events]. unfold bind at 1, get at 1. cbn [world events].
    rewrite for_each_get_image. now rewrite <- app_assoc.
  - induction (AlbumStore_albums w) as [|a l IH]; simpl; [lia|].
    rewrite length_app. pose proof (thumb_of_length (TrackStore_tracks w) a).
    lia.
  - intros a t. unfold thumb_of.
    induction (TrackStore_tracks w) as [|u us IH]; simpl; [discriminate|].
    destruct (String.eqb_spec (Track.albumhash u) (Album.albumhash a))
      as [He|Hne].
    + intros H. injection H as H1 H2. exists [], u, us.
      split; [reflexivity|]. split; [intros x []|].
      repeat split; assumption.
    + intros H. destruct (IH H) as (pre & t' & post & Heq & Hpre & Ht').
      exists (u :: pre), t', post. split; [simpl; now rewrite Heq|].
      split; [|exact Ht'].
      intros x [<-|Hx]; [exact Hne|now apply Hpre].
Qed.



(** ** Outcomes of the later stages (lines 80-101) *)

(** X14: when the probe answers unreachable, the run that got to the
    enrichment stage returns normally: it logs one warning, whose text has
    the configured sleep time rendered in it and which carries no argument,
    and touches nothing; neither the download nor the second artist colour
    pass is invoked. *)
Theorem unreachable_skips_enrichment (E : Env) (key : string)
  (sched : schedule) (s0 s : St) :
  before_enrich E key sched s0 = Ok true s ->
  Ping E (world s) = false ->
  Populate E key sched s0
  = Ok tt
      (mkSt (world s)
         (events s
          ++ [Probe false;
              Log WARNING
                ("No internet connection. Downloading artist images halted for "
                 ++ py_str (get_scan_sleep_time E) ++ " seconds.")%string
                []])).
Proof.
  intros Hb Hp. rewrite Populate_before_enrich. unfold bind at 1. rewrite Hb.
  destruct s as [w ev]. cbn [world events] in *.
  unfold enrich, bind, get, log, emit, ret. cbn [world events].
  rewrite Hp. cbn [world events]. now rewrite <- app_assoc.
Qed.

Lemma unreachable_skips_enrichment_witness :
  exists s',
    Populate (Demo.env false Demo.quiet) "K1" Demo.alone
      (Demo.start (Demo.empty_world ["/home/u"]))
    = Ok tt s'.
Proof.
  destruct (before_enrich (Demo.env false Demo.quiet) "K1" Demo.alone
              (Demo.start (Demo.empty_world ["/home/u"])))
    as [[|] s|e s] eqn:Hb; try (vm_compute in Hb; discriminate Hb).
  eexists.
  exact (unreachable_skips_enrichment (Demo.env false Demo.quiet) "K1"
           Demo.alone _ s Hb eq_refl).
Defined.

(** X15: the handler of the download takes connection failures and read
    timeouts only.  Any other exception raised by the download leaves
    [Populate], in the world the download left, and the second artist
    colour pass is not invoked. *)
Theorem other_download_errors_propagate (E : Env) (key : string)
  (sched : schedule) (s0 s : St) (e : exn) (w' : World) :
  before_enrich E key sched s0 = Ok true s ->
  Ping E (world s) = true ->
  CheckArtistImages E (world s) = (Raised e, w') ->
  is_network_failure e = false ->
  Populate E key sched s0
  = Raise e (mkSt w' (events s ++ [Probe true; Call ArtistImages])).
Proof.
  intros Hb Hp Hc Hn. rewrite Populate_before_enrich. unfold bind at 1.
  rewrite Hb. destruct s as [w ev]. cbn [world events] in *.
  unfold enrich, try_except, bind, get, log, emit, call, ret.
  cbn [world events]. rewrite Hp. cbn [world events]. rewrite Hc.
  rewrite Hn. now rewrite <- app_assoc.
Qed.

Lemma other_download_errors_propagate_witness :
  exists s',
    Populate (Demo.env true (Demo.failing (OtherError "KeyError"))) "K1"
      Demo.alone (Demo.start (Demo.empty_world ["/home/u"]))
    = Raise (OtherError "KeyError") s'.
Proof.
  destruct (before_enrich (Demo.env true (Demo.failing (OtherError "KeyError")))
              "K1" Demo.alone (Demo.start (Demo.empty_world ["/home/u"])))
    as [[|] s|e s] eqn:Hb; try (vm_compute in Hb; discriminate Hb).
  eexists.
  exact (other_download_errors_propagate
           (Demo.env true (Demo.failing (OtherError "KeyError"))) "K1"
           Demo.alone _ s (OtherError "KeyError") (world s)
           Hb eq_refl eq_refl eq_refl).
Defined.

(** X16: an exception raised by the album colour stage leaves [Populate]:
    the thumbnails were asked for, from the stores as tag ingestion left
    them, but neither the artist colour stage nor the probe nor the
    download is invoked. *)
Theorem album_colors_failure_aborts (E : Env) (key : string)
  (sched : schedule) (s0 : St) (untagged : list string) (s1 s : St)
  (e : exn) (w1 : World) :
  detect_changes E key s0 = Ok (Some untagged) s1 ->
  (if negb (Nat.eqb (length untagged) 0)
   then tag_untagged E untagged key sched else ret tt) s1 = Ok tt s ->
  ProcessAlbumColors E (world s) = (Raised e, w1) ->
  Populate E key sched s0
  = Raise e
      (mkSt w1
         (events s
          ++ Call TrackThumbnails
             :: flat_map (thumb_of (TrackStore_tracks (world s)))
                  (AlbumStore_albums (world s))
          ++ [Call AlbumColors])).
Proof.
  intros Hd Ht Ha. unfold Populate. unfold bind at 1. rewrite Hd.
  unfold bind at 1. rewrite Ht. unfold bind at 1. unfold extract.
  unfold bind at 1. unfold ProcessTrackThumbnails.
  unfold bind at 1, emit at 1. cbn [world events].
  unfold bind at 1, get at 1. cbn [world events].
  rewrite for_each_get_image. unfold bind at 1. rewrite call_eq.
  cbn [world events]. rewrite Ha. cbn [fst snd].
  rewrite <- !app_assoc. reflexivity.
Qed.

Lemma album_colors_failure_aborts_witness :
  exists s',
    Populate (mkEnv "/home/u" Demo.scandir Demo.mtime Demo.tags_of Demo.hash
                300 Demo.quiet (Demo.failing (OtherError "IOError"))
                Demo.quiet Demo.quiet (fun _ => true))
      "K1" Demo.alone (Demo.start (Demo.empty_world ["/home/u"]))
    = Raise (OtherError "IOError") s'.
Proof.
  eexists.
  refine (album_colors_failure_aborts
            (mkEnv "/home/u" Demo.scandir Demo.mtime Demo.tags_of Demo.hash
               300 Demo.quiet (Demo.failing (OtherError "IOError"))
               Demo.quiet Demo.quiet (fun _ => true))
            "K1" Demo.alone (Demo.start (Demo.empty_world ["/home/u"]))
            ["/home/u/x.mp3"]
            (mkSt (mkWorld "K1" [] [] [] [] [] ["/home/u"])
               [Call ValidateTracks])
            (mkSt (mkWorld "K1" [Track_of_tags Demo.tags_x]
                     [Album.mk "albB" "albB.webp"] [Artist.mk "Y" "#Y"]
                     [Demo.tags_x] [] ["/home/u"])
               [Call ValidateTracks;
                Log INFO "Found %s new tracks" [ArgN 1];
                GetTags "/home/u/x.mp3";
                Log INFO "Adding %s tracks to database" [ArgN 1];
                Log INFO "Added %s/%s tracks" [ArgN 1; ArgN 1]])
            (OtherError "IOError") _ _ _ _); reflexivity.
Defined.

(** ** Favourites and duplicates (lines 123-137) *)

Lemma py_in_empty h : py_in "" h = true.
Proof. destruct h; reflexivity. Qed.

Lemma py_in_nothing n : n <> "" -> py_in n "" = false.
Proof. destruct n; [intros H; now elim H|reflexivity]. Qed.

(** X17: two edges of the favourite test of line 135.  A track whose
    trackhash is the empty string is marked favourite whatever the
    favourites are; and when there is no favourite at all, no track with a
    non-empty trackhash is marked. *)
Theorem favorite_edge_cases (E : Env) (key : string) (sched : schedule)
  (files : list string) (w : World) (ev : list event)
  (f : string) (g : Tags.t) :
  In f (uncancelled key sched (POPULATE_KEY w) files) ->
  get_tags E f = Some g ->
  exists t,
    In t (TrackStore_tracks
            (world (final (tag_untagged E files key sched (mkSt w ev)))))
    /\ Track.filepath t = Tags.filepath g
    /\ Track.trackhash t = Tags.trackhash g
    /\ (Tags.trackhash g = "" -> Track.is_favorite t = true)
    /\ (db_favorites w = [] -> Tags.trackhash g <> "" ->
        Track.is_favorite t = false).
Proof.
  intros Hf Hg. exists (tagged_track (fav_string w) g). split.
  - destruct (tag_untagged_final E files key sched w ev) as (Ht & _).
    rewrite Ht, fold_tag_world_tracks. apply in_or_app. right.
    apply in_map. now apply (tagged_In E _ f).
  - split; [reflexivity|]. split; [reflexivity|]. split.
    + intros He. cbn. rewrite He. apply py_in_empty.
    + intros Hn Hne. cbn. unfold fav_string. rewrite Hn. cbn.
      now apply py_in_nothing.
Qed.

Lemma favorite_edge_cases_witness :
  exists t,
    In t (TrackStore_tracks
            (world (final (tag_untagged (Demo.env true Demo.quiet)
                             ["/music/a.mp3"] "K1" Demo.alone
                             (mkSt (mkWorld "K1" [] [] [] [] [] ["/music"])
                                   [])))))
    /\ Track.filepath t = "/music/a.mp3"
    /\ Track.is_favorite t = false.
Proof.
  destruct (favorite_edge_cases (Demo.env true Demo.quiet) "K1" Demo.alone
              ["/music/a.mp3"] (mkWorld "K1" [] [] [] [] [] ["/music"]) []
              "/music/a.mp3" Demo.tags_a)
    as (t & H1 & H2 & _ & _ & H3).
  - now left.
  - reflexivity.
  - exists t. split; [exact H1|]. split; [exact H2|].
    apply H3; [reflexivity|discriminate].
Defined.

Lemma tagged_filepaths_NoDup E :
  (forall f g, get_tags E f = Some g -> Tags.filepath g = f) ->
  forall fs, NoDup fs -> NoDup (map Tags.filepath (tagged E fs)).
Proof.
  intros Htags fs. induction fs as [|f fs IH]; intros Hnd; [constructor|].
  inversion Hnd as [|? ? Hnot Hnd']; subst.
  change (tagged E (f :: fs))
    with ((match get_tags E f with Some g => [g] | None => [] end)
          ++ tagged E fs).
  destruct (get_tags E f) as [g|] eqn:Hg; [|now apply IH].
  cbn [app map]. constructor; [|now apply IH].
  rewrite (Htags f g Hg). intros Hc. apply Hnot.
  now apply (tagged_filepaths E fs Htags).
Qed.

(** X18: a file is ingested once however often the scan lists it, for
    instance under two overlapping roots: the tracks that tag ingestion
    adds for the untagged set have pairwise different filepaths, each of a
    scanned file that no known track had.  The tag extractor records the
    path it is given as the filepath. *)
Theorem untagged_files_ingested_once (E : Env) (key : string)
  (sched : schedule) (known : list Track.t) (scanned : list string)
  (w : World) (ev : list event) :
  (forall f g, get_tags E f = Some g -> Tags.filepath g = f) ->
  exists added,
    TrackStore_tracks
      (world (final (tag_untagged E (filter_untagged known scanned) key sched
                       (mkSt w ev))))
    = TrackStore_tracks w ++ added
    /\ NoDup (map Track.filepath added)
    /\ forall t, In t added ->
         In (Track.filepath t) scanned
         /\ ~ In (Track.filepath t) (map Track.filepath known).
Proof.
  intros Htags.
  destruct (tag_untagged_final E (filter_untagged known scanned) key sched
              w ev) as (Ht & _).
  rewrite Ht, fold_tag_world_tracks. eexists. split; [reflexivity|].
  set (done := uncancelled key sched (POPULATE_KEY w)
                 (filter_untagged known scanned)).
  assert (Hmap : map Track.filepath
                   (map (tagged_track (fav_string w)) (tagged E done))
                 = map Tags.filepath (tagged E done)).
  { rewrite map_map. reflexivity. }
  split.
  - rewrite Hmap. apply (tagged_filepaths_NoDup E Htags).
    destruct (uncancelled_prefix key (filter_untagged known scanned) sched
                (POPULATE_KEY w)) as (rest & Hr).
    fold done in Hr.
    assert (Hnd : NoDup (done ++ rest)).
    { rewrite <- Hr. unfold filter_untagged. apply NoDup_nodup. }
    now apply NoDup_app_remove_r in Hnd.
  - intros t Hin. apply (in_map Track.filepath) in Hin. rewrite Hmap in Hin.
    apply (tagged_filepaths E done Htags) in Hin.
    apply uncancelled_In, filter_untagged_In in Hin. exact Hin.
Qed.

Lemma untagged_files_ingested_once_witness :
  exists added,
    TrackStore_tracks
      (world (final (tag_untagged (Demo.env true Demo.quiet)
                       (filter_untagged []
                          ["/music/a.mp3"; "/music/a.mp3"; "/music/b.mp3"])
                       "K1" Demo.alone
                       (mkSt (mkWorld "K1" [] [] [] [] [] ["/music"]) []))))
    = [] ++ added
    /\ NoDup (map Track.filepath added).
Proof.
  destruct (untagged_files_ingested_once (Demo.env true Demo.quiet) "K1"
              Demo.alone []
              ["/music/a.mp3"; "/music/a.mp3"; "/music/b.mp3"]
              (mkWorld "K1" [] [] [] [] [] ["/music"]) [])
    as (added & H1 & H2 & _).
  - intros f g. simpl. unfold Demo.tags_of.
    destruct (String.eqb_spec f "/music/a.mp3") as [->|_];
      [intros Hg; now injection Hg as <-|].
    destruct (String.eqb_spec f "/music/b.mp3") as [->|_];
      [intros Hg; now injection Hg as <-|].
    destruct (String.eqb_spec f "/home/u/x.mp3") as [->|_];
      [intros Hg; now injection Hg as <-|discriminate].
  - exists added. split; [exact H1|exact H2].
Defined.

(** ** An unreadable known track at the level of the run (lines 49-74) *)

(** X19: when roots are configured and the file of a track of the
    persistent table cannot be read once [validate_tracks] has returned,
    the whole run ends with the [OSError] of [remove_modified]: the world
    is the one [validate_tracks] left, nothing is removed or ingested and no
    later stage is invoked. *)
Theorem unreadable_known_track_aborts_run (E : Env) (key : string)
  (sched : schedule) (w0 : World) (ev0 : list event) (w1 : World)
  (g : Tags.t) :
  validate_tracks E (set_POPULATE_KEY key w0) = (Returned, w1) ->
  db_root_dirs w1 <> [] ->
  In g (db_tracks w1) ->
  getmtime E (Tags.filepath g) = None ->
  exists p,
    Populate E key sched (mkSt w0 ev0)
    = Raise (OSError p) (mkSt w1 (ev0 ++ [Call ValidateTracks]))
    /\ getmtime E p = None
    /\ In p (map Tags.filepath (db_tracks w1)).
Proof.
  intros Hv Hroots Hg Hn.
  destruct (modified_paths_first_unreadable E
              (map Track_of_tags (db_tracks w1)) (Track_of_tags g))
    as (pre & u & post & Heq & _ & Hu & Hmp).
  { now apply in_map. }
  { exact Hn. }
  exists (Track.filepath u). split; [|split; [exact Hu|]].
  - unfold Populate. unfold bind at 1. rewrite detect_changes_eq. cbn zeta.
    rewrite Hv. cbn [fst snd].
    destruct (db_root_dirs w1) as [|d ds]; [now elim Hroots|].
    cbn [length Nat.eqb]. now rewrite Hmp.
  - assert (Hin : In u (map Track_of_tags (db_tracks w1))).
    { rewrite Heq. apply in_or_app. right. now left. }
    apply in_map_iff in Hin. destruct Hin as (r & <- & Hr).
    apply in_map_iff. now exists r.
Qed.

Lemma unreadable_known_track_aborts_run_witness :
  exists p,
    Populate (Demo.env true Demo.quiet) "K1" Demo.alone
      (Demo.start
         (mkWorld "" [] [] []
            [Tags.mk "/music/gone.mp3" 10 "77aa" "albA" [] [] ""]
            [] ["/music"]))
    = Raise (OSError p)
        (mkSt (mkWorld "K1" [] [] []
                 [Tags.mk "/music/gone.mp3" 10 "77aa" "albA" [] [] ""]
                 [] ["/music"])
           [Call ValidateTracks]).
Proof.
  destruct (unreadable_known_track_aborts_run (Demo.env true Demo.quiet) "K1"
              Demo.alone
              (mkWorld "" [] [] []
                 [Tags.mk "/music/gone.mp3" 10 "77aa" "albA" [] [] ""]
                 [] ["/music"])
              []
              (mkWorld "K1" [] [] []
                 [Tags.mk "/music/gone.mp3" 10 "77aa" "albA" [] [] ""]
                 [] ["/music"])
              (Tags.mk "/music/gone.mp3" 10 "77aa" "albA" [] [] ""))
    as (p & H & _).
  - reflexivity.
  - discriminate.
  - now left.
  - reflexivity.
  - exists p. exact H.
Defined.
